(** * Significant locations: spatial merging and interval collapsing

    A shallow embedding of [src/main.py]: the greedy spatial merger
    [smart_merge], the interval collapser [collapse_visits], and the
    script-level glue between them (the per-place summary, the
    place-to-group map, the grouped application of the collapser and the
    final filter on the number of visits); further, the parsing loop that
    builds the visits, the choice of the home row and the time shown in
    the popups.

    Conventions.
    - A pandas [Timestamp] is an integer count of nanoseconds; it is a [Z].
    - A float (coordinates, minutes, metres) is the rational it stands
      for, a [Q].  The two totals that decide a merge (lines 56-58) are the
      floats that [Series.sum()] returns: the merger takes the column sum
      as a parameter.  The means and the total of line 119 are written
      without rounding.  A mean over no rows (NaN in pandas) is [None].
    - A data frame is the list of its rows, in row order.
    - [sort_values] does not promise an order among rows with equal keys.
      [sort_values_start] keeps such rows in their order, which is one of
      the orders it may return; what is stated of the collapser for
      visits with [start <= end] holds for every such order
      ([collapse_windows_any_order]), and so does idempotence
      ([collapse_idempotent_well_formed]), which fails without it.
    - [geopy.distance.geodesic] is not part of the repository: the merger
      takes the distance function as a parameter.  So does the parsing loop
      with [float] and [pd.to_datetime]. *)

From Stdlib Require Import ZArith QArith Qabs String Ascii.
From Stdlib Require Import DecimalString DecimalNat Qround Lqa.
From stdpp Require Import base list gmap strings sets sorting.

Local Open Scope Z_scope.

(** ** Rows *)

(** One row of [df_visits] (lines 21-29). *)
Record Visit := mkVisit {
  start : Z;
  end_ : Z;
  duration_min : Q;
  placeID : string;
  lat : Q;
  lng : Q
}.

(** [Timedelta.total_seconds()]. *)
Definition total_seconds (td : Z) : Q := Qmake td 1000000000.

(** [(end - start).total_seconds() / 60]. *)
Definition minutes_between (s e : Z) : Q :=
  Qdiv (total_seconds (e - s)) (inject_Z 60).

(** The dictionary appended to [visits] by the parsing loop (lines 21-29):
    the stored duration is computed from the two timestamps. *)
Definition parsed_visit (pid : string) (s e : Z) (la ln : Q) : Visit :=
  {| start := s; end_ := e; duration_min := minutes_between s e;
     placeID := pid; lat := la; lng := ln |}.

(** The data model's invariant on a visit. *)
Definition well_formed (v : Visit) : Prop := start v <= end_ v.

(** ** Column helpers *)

(** Python's [sum]: a left fold from [0]. *)
Definition qsum (l : list Q) : Q := fold_left Qplus l (inject_Z 0).

(** [Series.mean()]: NaN on an empty column. *)
Definition mean (l : list Q) : option Q :=
  match l with
  | [] => None
  | _ => Some (Qdiv (qsum l) (inject_Z (Z.of_nat (length l))))
  end.

(** ** Sorting a frame by a key *)

Section Sort.
Context {A : Type} (le : A -> A -> bool).

Fixpoint insert_by (x : A) (l : list A) : list A :=
  match l with
  | [] => [x]
  | y :: l' => if le x y then x :: l else y :: insert_by x l'
  end.

(** Rows with equal keys keep their relative order. *)
Fixpoint sort_by (l : list A) : list A :=
  match l with
  | [] => []
  | x :: l' => insert_by x (sort_by l')
  end.
End Sort.

(** [group.sort_values('start')], with rows of equal start kept in their
    order. *)
Definition sort_values_start (group : list Visit) : list Visit :=
  sort_by (fun a b => start a <=? start b) group.

(** ** The interval collapser (lines 101-126) *)

(** A coalesced window [(current_start, current_end)]. *)
Definition Window : Type := Z * Z.

(** The loop state: [merged] and the running window, [None] while
    [current_start is None]. *)
Definition SweepState : Type := list Window * option Window.

(** One iteration of the loop over [group.itertuples()] (lines 106-113). *)
Definition sweep_step (st : SweepState) (visit : Visit) : SweepState :=
  let '(merged, current) := st in
  match current with
  | None => (merged, Some (start visit, end_ visit))
  | Some (current_start, current_end) =>
      if start visit <=? current_end
      then (merged, Some (current_start, Z.max current_end (end_ visit)))
      else (merged ++ [(current_start, current_end)],
            Some (start visit, end_ visit))
  end.

(** Lines 115-117: the final open window is added. *)
Definition close_sweep (st : SweepState) : list Window :=
  match st with
  | (merged, None) => merged
  | (merged, Some w) => merged ++ [w]
  end.

(** The value of [merged] at line 119, for rows already in sweep order. *)
Definition sweep (rows : list Visit) : list Window :=
  close_sweep (fold_left sweep_step rows ([], None)).

(** The value of [merged] at line 119. *)
Definition collapse_windows (group : list Visit) : list Window :=
  sweep (sort_values_start group).

Definition window_minutes (w : Window) : Q := minutes_between (fst w) (snd w).

(** Line 119. *)
Definition total_minutes (merged : list Window) : Q :=
  qsum (map window_minutes merged).

(** The series returned by [collapse_visits] (lines 121-126). *)
Record CollapsedRow := mkCollapsedRow {
  c_lat : option Q;
  c_lng : option Q;
  c_num_visits : nat;
  c_total_duration_min : Q
}.

Definition collapse_visits (group : list Visit) : CollapsedRow :=
  let merged := collapse_windows group in
  {| c_lat := mean (map lat group);
     c_lng := mean (map lng group);
     c_num_visits := length merged;
     c_total_duration_min := total_minutes merged |}.


(** Clock times of one day, in nanoseconds. *)
Definition clock (h m : Z) : Z := (h * 3600 + m * 60) * 1000000000.

(** ** The place summary (lines 80-87) *)

(** One row of [place_summary]. *)
Record PlaceRow := mkPlaceRow {
  ps_placeID : string;
  ps_lat : Q;
  ps_lng : Q;
  ps_num_visits : nat;
  ps_total_duration_min : Q
}.

(** [df[df['placeID'] == pid]]. *)
Definition visits_of (df : list Visit) (pid : string) : list Visit :=
  filter (fun v => placeID v = pid) df.

(** The keys of [groupby('placeID')]: the distinct identifiers, sorted. *)
Definition group_keys (keys : list string) : list string :=
  sort_by String.leb (remove_dups keys).

(** The aggregates of one group of [groupby('placeID')] (lines 80-84): the
    two means, the count and the sum.  A group is never empty, so its means
    exist. *)
Definition summary_row (df : list Visit) (pid : string) : PlaceRow :=
  let rows := visits_of df pid in
  {| ps_placeID := pid;
     ps_lat := default (inject_Z 0) (mean (map lat rows));
     ps_lng := default (inject_Z 0) (mean (map lng rows));
     ps_num_visits := length rows;
     ps_total_duration_min := qsum (map duration_min rows) |}.

(** [groupby('placeID').agg(...).reset_index()]: one row per identifier. *)
Definition place_summary_of (df : list Visit) : list PlaceRow :=
  map (summary_row df) (group_keys (map placeID df)).

(** ** The spatial merger (lines 36-76) *)

(** [a < b] on floats. *)
Definition Qltb (a b : Q) : bool := negb (Qle_bool b a).

(** Lines 66-68: the strict overlap test of two visit intervals. *)
Definition overlaps (v1 v2 : Visit) : bool :=
  let latest_start := Z.max (start v1) (start v2) in
  let earliest_end := Z.min (end_ v1) (end_ v2) in
  latest_start <? earliest_end.

(** [merged_group] and [used] while one group is being built. *)
Definition GroupState : Type := list string * gset string.

(** Lines 52-53, 59-60 and 69-70. *)
Definition absorb (pid2 : string) (st : GroupState) : GroupState :=
  (fst st ++ [pid2], {[pid2]} ∪ snd st).

(** The loop over [visits2.itertuples()] (lines 65-72); the flag is
    [overlap], and the loop is left at the first overlapping visit. *)
Fixpoint scan_visits2 (pid2 : string) (v1 : Visit) (visits2 : list Visit)
    (st : GroupState) : GroupState * bool :=
  match visits2 with
  | [] => (st, false)
  | v2 :: rest =>
      if overlaps v1 v2 then (absorb pid2 st, true)
      else scan_visits2 pid2 v1 rest st
  end.

(** The loop over [visits1.itertuples()] (lines 64-74). *)
Fixpoint scan_visits1 (pid2 : string) (visits1 visits2 : list Visit)
    (st : GroupState) : GroupState * bool :=
  match visits1 with
  | [] => (st, false)
  | v1 :: rest =>
      let '(st', overlap) := scan_visits2 pid2 v1 visits2 st in
      if overlap then (st', true)
      else scan_visits1 pid2 rest visits2 st'
  end.

(** [Series.sum()] on a float column (lines 56-57) adds rounded values,
    in an order and with a rounding that depend on the installed numpy;
    like the distance, it is a parameter of the merger: [series_sum col] is
    the float that [col.sum()] returns.  [qsum] is the sum without
    rounding. *)
Section Merger.
Variable series_sum : list Q -> Q.
Variable geodesic_m : Q * Q -> Q * Q -> Q.
Variable df_visits : list Visit.
Variable place_summary : list PlaceRow.
Variable distance_threshold_m : Q.
Variable min_visits : Z.

(** Line 47. *)
Definition centroid_distance (place1 place2 : PlaceRow) : Q :=
  geodesic_m (ps_lat place1, ps_lng place1) (ps_lat place2, ps_lng place2).

(** Lines 49-74: the decision for a pair that passed the distance test. *)
Definition merge_within (place1 place2 : PlaceRow) (st : GroupState)
    : GroupState :=
  let visits1 := visits_of df_visits (ps_placeID place1) in
  let visits2 := visits_of df_visits (ps_placeID place2) in
  if Z.of_nat (length visits2) <? min_visits then
    absorb (ps_placeID place2) st
  else
    let total1 := series_sum (map duration_min visits1) in
    let total2 := series_sum (map duration_min visits2) in
    if Qltb (inject_Z 700) total1 && Qltb (inject_Z 700) total2 then
      absorb (ps_placeID place2) st
    else
      fst (scan_visits1 (ps_placeID place2) visits1 visits2 st).

(** The body of the loop over [place2] (lines 45-74). *)
Definition consider (place1 : PlaceRow) (st : GroupState)
    (place2 : PlaceRow) : GroupState :=
  if bool_decide (ps_placeID place1 = ps_placeID place2)
     || bool_decide (ps_placeID place2 ∈ snd st)
  then st
  else
    let dist := centroid_distance place1 place2 in
    if Qle_bool dist distance_threshold_m
    then merge_within place1 place2 st
    else st.

(** Lines 43-74: the group seeded with [place1], and [used] after it. *)
Definition build_group (place1 : PlaceRow) (used : gset string)
    : GroupState :=
  fold_left (consider place1) place_summary ([ps_placeID place1], used).

(** The body of the loop over [place1] (lines 41-75). *)
Definition open_group (st : list (list string) * gset string)
    (place1 : PlaceRow) : list (list string) * gset string :=
  let '(merged_clusters, used) := st in
  if bool_decide (ps_placeID place1 ∈ used) then st
  else
    let '(merged_group, used') := build_group place1 used in
    (merged_clusters ++ [merged_group], used').

Definition smart_merge : list (list string) :=
  fst (fold_left open_group place_summary ([], ∅)).
End Merger.

(** ** From groups to the merged summary (lines 90-138) *)

(** [f"merged_{i}"]. *)
Definition merged_key (i : nat) : string :=
  String.append "merged_" (NilEmpty.string_of_uint (Nat.to_uint i)).

(** Lines 92-95: a later group overwrites the entry of an earlier one. *)
Definition place_id_merge_map (merged_groups : list (list string))
    : gmap string string :=
  fst (fold_left
         (fun (st : gmap string string * nat) group =>
            (fold_left (fun m pid => <[pid := merged_key (snd st)]> m)
                       group (fst st),
             S (snd st)))
         merged_groups (∅, 0%nat)).

(** Line 98: the column [merged_placeID]; [None] is a missing value. *)
Definition merged_placeID (m : gmap string string) (v : Visit)
    : option string :=
  m !! placeID v.

(** Lines 130-136: the collapser applied to each group of the column, the
    groups in the order of their keys; rows without a key are dropped. *)
Definition merged_summary_all (m : gmap string string) (df : list Visit)
    : list (string * CollapsedRow) :=
  map (fun k =>
         (k, collapse_visits (filter (fun v => merged_placeID m v = Some k) df)))
      (group_keys (omap (merged_placeID m) df)).

(** Line 138. *)
Definition more_than_two_visits (rows : list (string * CollapsedRow))
    : list (string * CollapsedRow) :=
  filter (fun r => (2 < c_num_visits (snd r))%nat) rows.

(** The script from line 80 to line 138, with the defaults of
    [smart_merge]. *)
Definition merged_summary (series_sum : list Q -> Q)
    (geodesic_m : Q * Q -> Q * Q -> Q) (df : list Visit)
    : list (string * CollapsedRow) :=
  let place_summary := place_summary_of df in
  let merged_groups :=
    smart_merge series_sum geodesic_m df place_summary (inject_Z 130) 2 in
  more_than_two_visits
    (merged_summary_all (place_id_merge_map merged_groups) df).

(** ** Vocabulary of the statements *)

(** The sweep from an open window [(current_start, current_end)], written
    by recursion on the remaining rows; [sweep_from_spec] relates it to the
    loop. *)
Fixpoint sweep_from (current_start current_end : Z) (rows : list Visit)
    : list Window :=
  match rows with
  | [] => [(current_start, current_end)]
  | visit :: rows' =>
      if start visit <=? current_end
      then sweep_from current_start (Z.max current_end (end_ visit)) rows'
      else (current_start, current_end)
             :: sweep_from (start visit) (end_ visit) rows'
  end.

(** The second window starts strictly after the first one ends. *)
Definition gap (w1 w2 : Window) : Prop := snd w1 < fst w2.

(** The visit's interval lies within the window. *)
Definition inside (v : Visit) (w : Window) : Prop :=
  fst w <= start v /\ end_ v <= snd w.

(** The instant [t] lies in the closed interval from [s] to [e]. *)
Definition covers (s e : Z) (t : Q) : Prop :=
  Qle (inject_Z s) t /\ Qle t (inject_Z e).

(** Two visits overlap or touch. *)
Definition touching (v1 v2 : Visit) : Prop :=
  Z.max (start v1) (start v2) <= Z.min (end_ v1) (end_ v2).

(** Some visit of the first frame strictly overlaps some visit of the
    second. *)
Definition some_overlap (visits1 visits2 : list Visit) : Prop :=
  exists v1 v2, v1 ∈ visits1 /\ v2 ∈ visits2 /\
    Z.max (start v1) (start v2) < Z.min (end_ v1) (end_ v2).

(** One of the three reasons to merge a pair within the distance
    threshold (lines 51, 58 and 68): few visits at [place2], both places
    heavy, or overlapping visits. *)
Definition merge_condition (series_sum : list Q -> Q) (df : list Visit)
    (min_visits : Z) (place1 place2 : PlaceRow) : Prop :=
  let visits1 := visits_of df (ps_placeID place1) in
  let visits2 := visits_of df (ps_placeID place2) in
  Z.of_nat (length visits2) < min_visits \/
  (Qlt (inject_Z 700) (series_sum (map duration_min visits1)) /\
   Qlt (inject_Z 700) (series_sum (map duration_min visits2))) \/
  some_overlap visits1 visits2.

(** ** Example data

    The durations of the examples are whole minutes, which float sums add
    without rounding: the examples take [qsum] for the column sum. *)

(** Two visits from 09:00 to 09:10 and from 10:00 to 10:10. *)
Definition two_apart : list Visit :=
  [parsed_visit "A" (clock 9 0) (clock 9 10) (inject_Z 38) (inject_Z (-78));
   parsed_visit "A" (clock 10 0) (clock 10 10) (inject_Z 38) (inject_Z (-78))].

(** Two visits from 10:00 to 11:00 and from 10:30 to 11:30. *)
Definition two_overlapping : list Visit :=
  [parsed_visit "A" (clock 10 0) (clock 11 0) (inject_Z 38) (inject_Z (-78));
   parsed_visit "A" (clock 10 30) (clock 11 30) (inject_Z 38) (inject_Z (-78))].

(** A visit that ends at 09:00 and starts at 10:00. *)
Definition backwards_visit : Visit :=
  parsed_visit "A" (clock 10 0) (clock 9 0) (inject_Z 38) (inject_Z (-78)).


(** A stand-in for the geodesic distance in the examples: metres
    along the axes of a grid with 111 km to the degree.  It is zero between
    equal points, as the geodesic distance is. *)
Definition grid_distance_m (p q : Q * Q) : Q :=
  Qmult (inject_Z 111000)
        (Qplus (Qabs (Qminus (fst p) (fst q)))
               (Qabs (Qminus (snd p) (snd q)))).

(** A visit of [len] minutes starting at [h]:00, at latitude [la] and
    longitude 0. *)
Definition visit_at (pid : string) (h len : Z) (la : Q) : Visit :=
  parsed_visit pid (clock h 0) (clock h len) la (inject_Z 0).

(** The latitude 130 m north of the origin of the grid. *)
Definition north_130m : Q := Qmake 130 111000.

(** The latitude 131 m north of the origin of the grid. *)
Definition north_131m : Q := Qmake 131 111000.

(** One visit at "A", two later visits at "B", all at the same point. *)
Definition one_then_two : list Visit :=
  [visit_at "A" 9 30 (inject_Z 0);
   visit_at "B" 10 30 (inject_Z 0);
   visit_at "B" 11 30 (inject_Z 0)].

(** Five visits at "A", one at "B" at the same point and at another hour. *)
Definition five_and_one : list Visit :=
  [visit_at "A" 9 30 (inject_Z 0);
   visit_at "A" 33 30 (inject_Z 0);
   visit_at "A" 57 30 (inject_Z 0);
   visit_at "A" 81 30 (inject_Z 0);
   visit_at "A" 105 30 (inject_Z 0);
   visit_at "B" 12 30 (inject_Z 0)].

(** Two visits of six hours at "A" and two at "B", 130 m away, none
    overlapping another. *)
Definition two_heavy : list Visit :=
  [visit_at "A" 0 360 (inject_Z 0);
   visit_at "A" 24 360 (inject_Z 0);
   visit_at "B" 12 360 north_130m;
   visit_at "B" 36 360 north_130m].

(** Two visits of half an hour at "A" and two at "B", [la] north of "A";
    the visits at "B" start [shift] minutes after 09:00 and 33:00. *)
Definition two_and_two (la : Q) (shift : Z) : list Visit :=
  [visit_at "A" 9 30 (inject_Z 0);
   visit_at "A" 33 30 (inject_Z 0);
   parsed_visit "B" (clock 9 shift) (clock 9 (shift + 30)) la (inject_Z 0);
   parsed_visit "B" (clock 33 shift) (clock 33 (shift + 30)) la (inject_Z 0)].

(** Three separate visits at "A" and two separate visits at "C", one
    degree further north. *)
Definition three_and_two : list Visit :=
  [visit_at "A" 9 30 (inject_Z 0);
   visit_at "A" 33 30 (inject_Z 0);
   visit_at "A" 57 30 (inject_Z 0);
   visit_at "C" 12 30 (inject_Z 1);
   visit_at "C" 36 30 (inject_Z 1)].


(** ** Vocabulary of the further properties *)

(** The interval of a visit, as a window. *)
Definition interval (v : Visit) : Window := (start v, end_ v).

(** The summed length of the windows, in nanoseconds. *)
Definition total_ns (ws : list Window) : Z :=
  foldr (fun w acc => (snd w - fst w) + acc) 0 ws.

(** The stored duration of the visit is the one the parsing loop computes
    from its two timestamps (lines 24-25). *)
Definition consistent (v : Visit) : Prop :=
  duration_min v = minutes_between (start v) (end_ v).

(** The pair passes the merge test of lines 45-74: whenever [place2] is
    considered for the group of [place1] while unmarked, it is absorbed. *)
Definition merges (series_sum : list Q -> Q)
    (geodesic_m : Q * Q -> Q * Q -> Q) (df_visits : list Visit)
    (distance_threshold_m : Q) (min_visits : Z) (place1 place2 : PlaceRow)
    : Prop :=
  forall st : GroupState, ps_placeID place2 ∉ snd st ->
    consider series_sum geodesic_m df_visits distance_threshold_m min_visits
             place1 st place2
    = absorb (ps_placeID place2) st.

(** The pair fails the merge test: considering [place2] for the group of
    [place1] never changes anything. *)
Definition leaves (series_sum : list Q -> Q)
    (geodesic_m : Q * Q -> Q * Q -> Q) (df_visits : list Visit)
    (distance_threshold_m : Q) (min_visits : Z) (place1 place2 : PlaceRow)
    : Prop :=
  forall st : GroupState,
    consider series_sum geodesic_m df_visits distance_threshold_m min_visits
             place1 st place2
    = st.

(** The seeds of the groups, in order. *)
Definition seeds (groups : list (list string)) : list string :=
  concat (map (take 1) groups).

(** The identifiers absorbed into the groups, in order. *)
Definition absorbed (groups : list (list string)) : list string :=
  concat (map (drop 1) groups).

(** What holds of [merged_clusters] and [used] after the rows [seen] have
    been taken as [place1]: every group is a seed row followed by rows that
    passed the merge test against it, every row that passes the test
    against a seed is marked, [used] is the set of absorbed identifiers,
    no identifier is absorbed twice, the seeds are taken from the rows
    seen, in order, and every row seen is marked or is a seed. *)
Definition grouped (series_sum : list Q -> Q)
    (geodesic_m : Q * Q -> Q * Q -> Q) (df_visits : list Visit)
    (place_summary : list PlaceRow) (distance_threshold_m : Q)
    (min_visits : Z) (seen : list PlaceRow)
    (st : list (list string) * gset string) : Prop :=
  Forall (fun group =>
            exists r added,
              r ∈ seen /\ group = ps_placeID r :: added /\ NoDup group /\
              (forall x, x ∈ added ->
                 exists p, p ∈ place_summary /\ ps_placeID p = x /\
                   merges series_sum geodesic_m df_visits distance_threshold_m
                          min_visits r p) /\
              (forall p, p ∈ place_summary ->
                 merges series_sum geodesic_m df_visits distance_threshold_m
                        min_visits r p ->
                 ps_placeID p ∈ snd st))
         (fst st) /\
  (forall x, x ∈ snd st <-> x ∈ absorbed (fst st)) /\
  NoDup (absorbed (fst st)) /\
  sublist (seeds (fst st)) (map ps_placeID seen) /\
  (forall r, r ∈ seen ->
     ps_placeID r ∈ snd st \/ ps_placeID r ∈ seeds (fst st)).

(** The place-to-group map the script builds (lines 80-95), for the
    visits [df] and the parameters of [smart_merge]. *)
Definition script_merge_map (series_sum : list Q -> Q)
    (geodesic_m : Q * Q -> Q * Q -> Q)
    (df : list Visit) (distance_threshold_m : Q) (min_visits : Z)
    : gmap string string :=
  place_id_merge_map
    (smart_merge series_sum geodesic_m df (place_summary_of df)
       distance_threshold_m min_visits).

(** ** The home row and the popups (lines 180-212) *)

(** [Series.idxmax()] from position [i] on, [best] at [best_i] being the
    largest value so far: the first position of the maximum. *)
Fixpoint idxmax_from (best_i : nat) (best : Q) (i : nat) (l : list Q) : nat :=
  match l with
  | [] => best_i
  | x :: l' =>
      if Qltb best x then idxmax_from i x (S i) l'
      else idxmax_from best_i best (S i) l'
  end.

(** [Series.idxmax()]; [None] is the [ValueError] on an empty column. *)
Definition idxmax (l : list Q) : option nat :=
  match l with
  | [] => None
  | x :: l' => Some (idxmax_from 0 x 1 l')
  end.

(** Lines 181-182: the labels after the row of the longest total duration
    has been renamed; [None] when line 181 raises. *)
Definition assign_home (rows : list (string * CollapsedRow))
    (labels : list string) : option (list string) :=
  match idxmax (map (fun r => c_total_duration_min (snd r)) rows) with
  | None => None
  | Some home_index => Some (<[home_index := "Home"]> labels)
  end.

(** Lines 202-203: [int(total // 60)] and [int(total % 60)], as the whole
    quotient and the whole part of the remainder.  The two operations are
    float operations; they give these values for a total from 0 up to
    [2 ^ 53]: the float remainder is then the remainder itself, the total
    less the remainder is a whole multiple of 60 that a float holds, and
    so is its quotient by 60.  Outside that range they need not (a
    negative total just below zero has the float remainder 60). *)
Definition popup_hours (total_duration_min : Q) : Z :=
  Qfloor (Qdiv total_duration_min (inject_Z 60)).

Definition popup_minutes (total_duration_min : Q) : Z :=
  Qfloor (Qminus total_duration_min
            (Qmult (inject_Z 60)
                   (inject_Z (Qfloor (Qdiv total_duration_min
                                        (inject_Z 60)))))).

(** ** Parsing the location history (lines 13-31) *)

(** [entry["visit"]["topCandidate"]]. *)
Record TopCandidate := mkTopCandidate {
  placeLocation : string;
  tc_placeID : string
}.

(** One entry of the history; [visit] is [None] when the entry has no
    "visit" key. *)
Record Entry := mkEntry {
  visit : option TopCandidate;
  startTime : string;
  endTime : string
}.

(** The character class [[0-9\.\-]] of line 17. *)
Definition coordinate_char (c : ascii) : bool :=
  match c with
  | "0" | "1" | "2" | "3" | "4" | "5" | "6" | "7" | "8" | "9"
  | "." | "-" => true
  | _ => false
  end%char.

(** The longest run of the class at the head of the text, and the rest:
    what a greedy [[0-9\.\-]*] takes. *)
Fixpoint coordinate_run (s : string) : string * string :=
  match s with
  | EmptyString => (EmptyString, EmptyString)
  | String c s' =>
      if coordinate_char c
      then let '(run, rest) := coordinate_run s' in (String c run, rest)
      else (EmptyString, s)
  end.

(** The pattern [geo:([0-9\.\-]+),([0-9\.\-]+)] matched at the head of the
    text.  Neither "," nor the end of the pattern is in the class, so the
    greedy runs are the only way to match. *)
Definition match_geo_at (s : string) : option (string * string) :=
  match s with
  | String "g" (String "e" (String "o" (String ":" s1))) =>
      let '(group1, s2) := coordinate_run s1 in
      match group1, s2 with
      | String _ _, String "," s3 =>
          let '(group2, _) := coordinate_run s3 in
          match group2 with
          | String _ _ => Some (group1, group2)
          | EmptyString => None
          end
      | _, _ => None
      end
  | _ => None
  end.

(** [re.search] of the pattern (line 17): the two groups of the leftmost
    match, [None] when there is no match. *)
Fixpoint re_search_geo (s : string) : option (string * string) :=
  match match_geo_at s with
  | Some groups => Some groups
  | None =>
      match s with
      | EmptyString => None
      | String _ s' => re_search_geo s'
      end
  end.

Section Parse.
(** [float] and [pd.to_datetime]; [None] when they raise. *)
Variable float : string -> option Q.
Variable to_datetime : string -> option Z.

(** Lines 15-29 for one entry: [None] when an exception leaves the script,
    [Some None] when the entry is skipped, [Some (Some v)] when the row [v]
    is appended. *)
Definition visit_of_entry (entry : Entry) : option (option Visit) :=
  match visit entry with
  | None => Some None
  | Some place =>
      match re_search_geo (placeLocation place) with
      | None => Some None
      | Some (group1, group2) =>
          match float group1, float group2,
                to_datetime (startTime entry), to_datetime (endTime entry)
          with
          | Some la, Some ln, Some s, Some e =>
              Some (Some (parsed_visit (tc_placeID place) s e la ln))
          | _, _, _, _ => None
          end
      end
  end.

(** One iteration of the loop of line 14 on the list [visits]. *)
Definition parse_step (visits : option (list Visit)) (entry : Entry)
    : option (list Visit) :=
  match visits with
  | None => None
  | Some rows =>
      match visit_of_entry entry with
      | None => None
      | Some None => Some rows
      | Some (Some v) => Some (rows ++ [v])
      end
  end.

(** Lines 13-29: the rows of [df_visits]. *)
Definition parse_visits (data : list Entry) : option (list Visit) :=
  fold_left parse_step data (Some []).
End Parse.

(** Every character of the text is in the class. *)
Fixpoint coordinate_text (s : string) : bool :=
  match s with
  | EmptyString => true
  | String c s' => coordinate_char c && coordinate_text s'
  end.

(** The text does not go on with a character of the class. *)
Definition run_ends (s : string) : bool :=
  match s with
  | EmptyString => true
  | String c _ => negb (coordinate_char c)
  end.

(** The letter "g" does not occur in the text. *)
Fixpoint no_g (s : string) : bool :=
  match s with
  | EmptyString => true
  | String c s' => negb (Ascii.eqb c "g") && no_g s'
  end.
(** * Properties *)

(** ** Sorting *)

Section SortFacts.
Context {A : Type} (le : A -> A -> bool).

Lemma insert_by_perm x l : insert_by le x l ≡ₚ x :: l.
Proof.
  induction l as [|y l IH]; simpl; [done|].
  destruct (le x y); [done|].
  rewrite IH. apply Permutation_swap.
Qed.

Lemma sort_by_perm l : sort_by le l ≡ₚ l.
Proof.
  induction l as [|x l IH]; simpl; [done|].
  by rewrite insert_by_perm, IH.
Qed.

Lemma sort_by_elem x l : x ∈ sort_by le l ↔ x ∈ l.
Proof. by rewrite sort_by_perm. Qed.

Lemma sort_by_length l : length (sort_by le l) = length l.
Proof. by rewrite sort_by_perm. Qed.

Hypothesis le_total : forall a b, le a b = false -> le b a = true.

Lemma insert_by_sorted x l :
  Sorted (fun a b => le a b = true) l ->
  Sorted (fun a b => le a b = true) (insert_by le x l).
Proof.
  induction 1 as [|y l Hs IH Hhd]; simpl.
  - repeat constructor.
  - destruct (le x y) eqn:Hxy.
    + constructor; [by constructor|by constructor].
    + constructor; [done|].
      destruct Hhd as [|z l Hyz]; simpl.
      * constructor. by apply le_total.
      * destruct (le x z); constructor; [by apply le_total|done].
Qed.

Lemma sort_by_sorted l : Sorted (fun a b => le a b = true) (sort_by le l).
Proof.
  induction l as [|x l IH]; simpl; [constructor|].
  by apply insert_by_sorted.
Qed.

(** A frame already in order is left as it is. *)
Lemma sort_by_id l :
  Sorted (fun a b => le a b = true) l -> sort_by le l = l.
Proof.
  induction 1 as [|x l Hs IH Hhd]; simpl; [done|].
  rewrite IH. destruct Hhd as [|y l Hxy]; simpl; [done|].
  by rewrite Hxy.
Qed.
End SortFacts.

Lemma Sorted_weaken {A} (R1 R2 : relation A) l :
  (forall a b, R1 a b -> R2 a b) -> Sorted R1 l -> Sorted R2 l.
Proof.
  intros HR. induction 1 as [|x l Hs IH Hhd]; constructor; [done|].
  destruct Hhd; constructor. by apply HR.
Qed.

Lemma sort_values_start_sorted group :
  Sorted (fun a b => start a <= start b) (sort_values_start group).
Proof.
  unfold sort_values_start.
  eapply Sorted_weaken; [|apply sort_by_sorted].
  - intros a b H. by apply Z.leb_le.
  - intros a b H. apply Z.leb_le. apply Z.leb_gt in H. lia.
Qed.

Lemma sort_values_start_strongly group :
  StronglySorted (fun a b => start a <= start b) (sort_values_start group).
Proof.
  apply Sorted_StronglySorted; [|apply sort_values_start_sorted].
  intros a b c ??. lia.
Qed.

Lemma sort_values_start_id group :
  Sorted (fun a b => start a <= start b) group ->
  sort_values_start group = group.
Proof.
  intros H. apply sort_by_id. eapply Sorted_weaken; [|exact H].
  intros a b ?. by apply Z.leb_le.
Qed.

(** ** The sweep *)

Lemma sweep_from_spec rows : forall merged cs ce,
  close_sweep (fold_left sweep_step rows (merged, Some (cs, ce)))
  = merged ++ sweep_from cs ce rows.
Proof.
  induction rows as [|v rows IH]; intros merged cs ce; simpl; [done|].
  destruct (start v <=? ce); rewrite IH; [done|].
  by rewrite <- app_assoc.
Qed.

Lemma sweep_cons v rows :
  sweep (v :: rows) = sweep_from (start v) (end_ v) rows.
Proof. unfold sweep. simpl. by rewrite sweep_from_spec. Qed.

Lemma sweep_from_head rows : forall cs ce,
  exists ce' rest, sweep_from cs ce rows = (cs, ce') :: rest /\ ce <= ce'.
Proof.
  induction rows as [|v rows IH]; intros cs ce; simpl.
  - exists ce, []. split; [done|lia].
  - destruct (start v <=? ce).
    + destruct (IH cs (Z.max ce (end_ v))) as (ce' & rest & -> & Hle).
      exists ce', rest. split; [done|lia].
    + exists ce, (sweep_from (start v) (end_ v) rows). split; [done|lia].
Qed.

Lemma sweep_from_gap rows : forall cs ce, Sorted gap (sweep_from cs ce rows).
Proof.
  induction rows as [|v rows IH]; intros cs ce; simpl.
  - repeat constructor.
  - destruct (start v <=? ce) eqn:Hle; [apply IH|].
    constructor; [apply IH|].
    destruct (sweep_from_head rows (start v) (end_ v)) as (ce' & rest & -> & _).
    constructor. unfold gap. simpl. apply Z.leb_gt in Hle. lia.
Qed.

Lemma sweep_from_length rows : forall cs ce,
  (length (sweep_from cs ce rows) <= S (length rows))%nat.
Proof.
  induction rows as [|v rows IH]; intros cs ce; simpl; [lia|].
  destruct (start v <=? ce); simpl.
  - specialize (IH cs (Z.max ce (end_ v))). lia.
  - specialize (IH (start v) (end_ v)). lia.
Qed.

Lemma sweep_from_proper rows : forall cs ce,
  cs <= ce -> Forall well_formed rows ->
  Forall (fun w => fst w <= snd w) (sweep_from cs ce rows).
Proof.
  induction rows as [|v rows IH]; intros cs ce Hc Hwf; simpl.
  - by repeat constructor.
  - inversion Hwf as [|? ? Hv Hrows]; subst. unfold well_formed in Hv.
    destruct (start v <=? ce).
    + apply IH; [lia|done].
    + constructor; [done|]. by apply IH.
Qed.

Lemma sweep_from_inside rows : forall cs ce,
  Forall (fun v => cs <= start v) rows ->
  StronglySorted (fun a b => start a <= start b) rows ->
  (exists w, w ∈ sweep_from cs ce rows /\ fst w <= cs /\ ce <= snd w) /\
  (forall v, v ∈ rows -> exists w, w ∈ sweep_from cs ce rows /\ inside v w).
Proof.
  induction rows as [|v rows IH]; intros cs ce Hcs Hs; simpl.
  - split.
    + exists (cs, ce). split; [apply list_elem_of_here|simpl; lia].
    + intros v Hv. by apply elem_of_nil in Hv.
  - inversion Hcs as [|? ? Hv Hrows]; subst.
    apply StronglySorted_inv in Hs as [Hs Hall].
    destruct (start v <=? ce) eqn:Hle.
    + destruct (IH cs (Z.max ce (end_ v)) Hrows Hs) as [(w & Hw & H1 & H2) IHv].
      split.
      * exists w. split; [done|lia].
      * intros v' [->|Hv']%elem_of_cons; [|by apply IHv].
        exists w. split; [done|]. unfold inside. lia.
    + destruct (IH (start v) (end_ v) Hall Hs) as [(w & Hw & H1 & H2) IHv].
      split.
      * exists (cs, ce). split; [apply list_elem_of_here|simpl; lia].
      * intros v' [->|Hv']%elem_of_cons.
        -- exists w. split; [by apply list_elem_of_further|done].
        -- destruct (IHv v' Hv') as (w' & Hw' & Hin).
           exists w'. split; [by apply list_elem_of_further|done].
Qed.

Lemma covers_extend cs ce sv ev t :
  sv <= ce -> covers cs (Z.max ce ev) t -> covers cs ce t \/ covers sv ev t.
Proof.
  intros Hsv [H1 H2]. destruct (Qlt_le_dec (inject_Z ce) t) as [Hlt|Hle].
  - right. split.
    + apply Qle_trans with (inject_Z ce); [by rewrite <- Zle_Qle|by apply Qlt_le_weak].
    + destruct (Z.max_spec ce ev) as [[_ Hm]|[_ Hm]]; rewrite Hm in H2; [done|].
      exfalso. by apply (Qlt_not_le _ _ Hlt).
  - left. by split.
Qed.

Lemma sweep_from_covered rows : forall cs ce w t,
  w ∈ sweep_from cs ce rows -> covers (fst w) (snd w) t ->
  covers cs ce t \/ exists v, v ∈ rows /\ covers (start v) (end_ v) t.
Proof.
  induction rows as [|v rows IH]; intros cs ce w t Hw Ht; simpl in Hw.
  - apply list_elem_of_singleton in Hw as ->. by left.
  - destruct (start v <=? ce) eqn:Hle.
    + apply Z.leb_le in Hle.
      destruct (IH _ _ _ _ Hw Ht) as [Hc|(v' & Hv' & Hc)].
      * destruct (covers_extend _ _ _ _ _ Hle Hc) as [?|?]; [by left|].
        right. exists v. split; [apply list_elem_of_here|done].
      * right. exists v'. split; [by apply list_elem_of_further|done].
    + apply elem_of_cons in Hw as [->|Hw]; [by left|].
      right. destruct (IH _ _ _ _ Hw Ht) as [Hc|(v' & Hv' & Hc)].
      * exists v. split; [apply list_elem_of_here|done].
      * exists v'. split; [by apply list_elem_of_further|done].
Qed.



(** ** The collapser *)

Lemma sweep_gap rows : Sorted gap (sweep rows).
Proof.
  destruct rows as [|v rows]; [constructor|].
  rewrite sweep_cons. apply sweep_from_gap.
Qed.

Lemma sweep_length rows : (length (sweep rows) <= length rows)%nat.
Proof.
  destruct rows as [|v rows]; [done|].
  rewrite sweep_cons. apply sweep_from_length.
Qed.

Lemma collapse_windows_gap group : Sorted gap (collapse_windows group).
Proof. apply sweep_gap. Qed.

Lemma collapse_windows_length group :
  (length (collapse_windows group) <= length group)%nat.
Proof.
  unfold collapse_windows. etrans; [apply sweep_length|].
  unfold sort_values_start. by rewrite sort_by_length.
Qed.

Lemma collapse_windows_proper group :
  Forall well_formed group ->
  Forall (fun w => fst w <= snd w) (collapse_windows group).
Proof.
  intros Hwf. unfold collapse_windows.
  assert (Hs : Forall well_formed (sort_values_start group)).
  { unfold sort_values_start. by rewrite sort_by_perm. }
  destruct (sort_values_start group) as [|v rows]; [constructor|].
  rewrite sweep_cons. inversion Hs; subst. by apply sweep_from_proper.
Qed.

Lemma collapse_windows_inside group v :
  v ∈ group -> exists w, w ∈ collapse_windows group /\ inside v w.
Proof.
  intros Hv. unfold collapse_windows.
  assert (Hv' : v ∈ sort_values_start group) by by apply sort_by_elem.
  pose proof (sort_values_start_strongly group) as Hs.
  destruct (sort_values_start group) as [|v0 rows]; [by apply elem_of_nil in Hv'|].
  rewrite sweep_cons. apply StronglySorted_inv in Hs as [Hs Hall].
  destruct (sweep_from_inside rows (start v0) (end_ v0) Hall Hs) as [Hw0 Hrows].
  apply elem_of_cons in Hv' as [->|Hv']; [|by apply Hrows].
  destruct Hw0 as (w & Hw & ? & ?). exists w. by split.
Qed.

Lemma collapse_windows_covered group w t :
  w ∈ collapse_windows group -> covers (fst w) (snd w) t ->
  exists v, v ∈ group /\ covers (start v) (end_ v) t.
Proof.
  unfold collapse_windows. intros Hw Ht.
  assert (Hsub : forall v, v ∈ sort_values_start group -> v ∈ group).
  { intros v. apply sort_by_elem. }
  destruct (sort_values_start group) as [|v0 rows]; [by apply elem_of_nil in Hw|].
  rewrite sweep_cons in Hw.
  destruct (sweep_from_covered _ _ _ _ _ Hw Ht) as [Hc|(v & Hv & Hc)].
  - exists v0. split; [apply Hsub, list_elem_of_here|done].
  - exists v. split; [by apply Hsub, list_elem_of_further|done].
Qed.


(** Windows with [start <= end] that are apart one by one are apart
    pairwise. *)
Lemma gap_pairwise (ws : list Window) :
  Sorted gap ws -> Forall (fun w => fst w <= snd w) ws ->
  forall i j w1 w2, ws !! i = Some w1 -> ws !! j = Some w2 -> (i < j)%nat ->
  gap w1 w2.
Proof.
  intros Hs Hp.
  assert (Hss : StronglySorted
            (fun w1 w2 => gap w1 w2 /\ fst w2 <= snd w2) ws).
  { apply Sorted_StronglySorted.
    - intros a b c [Hab Hb] [Hbc Hc]. unfold gap in *. lia.
    - induction Hs as [|w ws Hs IH Hhd]; [constructor|].
      inversion Hp as [|? ? Hw Hws]; subst.
      constructor; [by apply IH|].
      destruct Hhd as [|w' ws' Hg]; constructor.
      split; [done|]. by inversion Hws. }
  clear Hs Hp. induction Hss as [|w ws Hss IH Hall]; intros i j w1 w2 Hi Hj Hij.
  - by rewrite lookup_nil in Hi.
  - destruct j as [|j]; [lia|]. simpl in Hj. destruct i as [|i]; simpl in Hi.
    + injection Hi as <-. rewrite Forall_forall in Hall.
      apply list_elem_of_lookup_2 in Hj.
      by destruct (Hall _ Hj).
    + eapply IH; [done..|lia].
Qed.



(** C10: for well-formed visits the emitted windows are in strictly
    increasing order and apart from each other: a later window starts
    strictly after an earlier one ends (so starts and ends both increase
    strictly), and there are at most as many windows as input visits. *)
Theorem collapse_windows_apart (group : list Visit) :
  Forall well_formed group ->
  (forall i j w1 w2,
     collapse_windows group !! i = Some w1 ->
     collapse_windows group !! j = Some w2 ->
     (i < j)%nat ->
     fst w1 <= snd w1 /\ snd w1 < fst w2 /\ fst w2 <= snd w2) /\
  (c_num_visits (collapse_visits group) <= length group)%nat.
Proof.
  intros Hwf. split; [|apply collapse_windows_length].
  intros i j w1 w2 Hi Hj Hij.
  pose proof (collapse_windows_proper group Hwf) as Hp.
  pose proof (gap_pairwise _ (collapse_windows_gap group) Hp _ _ _ _ Hi Hj Hij).
  rewrite Forall_forall in Hp.
  split; [|split; [done|]]; apply Hp; by eapply list_elem_of_lookup_2.
Qed.

Lemma two_apart_well_formed : Forall well_formed two_apart.
Proof. repeat constructor; unfold well_formed, clock; simpl; lia. Qed.

Lemma collapse_windows_apart_witness :
  Forall well_formed two_apart /\
  (forall i j w1 w2,
     collapse_windows two_apart !! i = Some w1 ->
     collapse_windows two_apart !! j = Some w2 ->
     (i < j)%nat ->
     fst w1 <= snd w1 /\ snd w1 < fst w2 /\ fst w2 <= snd w2) /\
  (c_num_visits (collapse_visits two_apart) <= length two_apart)%nat.
Proof.
  split; [exact two_apart_well_formed|].
  exact (collapse_windows_apart two_apart two_apart_well_formed).
Defined.

(** ** Rows with equal starts *)

(** [sort_values] does not promise an order among rows with the same
    start.  For well-formed visits the windows do not depend on it: any
    two orderings by start of the same rows are swept to the same
    windows. *)

Lemma sweep_from_swap a b rows cs ce :
  start a = start b -> well_formed a -> well_formed b ->
  sweep_from cs ce (a :: b :: rows) = sweep_from cs ce (b :: a :: rows).
Proof.
  unfold well_formed. intros Heq Ha Hb. simpl.
  repeat case_match;
    repeat match goal with
           | H : (_ <=? _) = true |- _ => apply Z.leb_le in H
           | H : (_ <=? _) = false |- _ => apply Z.leb_gt in H
           end;
    try lia; repeat (f_equal; try lia).
Qed.

Lemma sweep_from_cong x rows rows' :
  (forall c1 c2, sweep_from c1 c2 rows = sweep_from c1 c2 rows') ->
  forall cs ce, sweep_from cs ce (x :: rows) = sweep_from cs ce (x :: rows').
Proof. intros H cs ce. simpl. destruct (start x <=? ce); by rewrite H. Qed.

Lemma sweep_from_front a q p :
  Forall (fun x => start x = start a /\ well_formed x) p -> well_formed a ->
  forall cs ce,
    sweep_from cs ce (p ++ a :: q) = sweep_from cs ce (a :: p ++ q).
Proof.
  intros Hp Ha. induction Hp as [|x p [Hx Hwf] Hp IH]; intros cs ce; [done|].
  simpl app. rewrite (sweep_from_cong x _ (a :: p ++ q) IH).
  by apply sweep_from_swap.
Qed.

Lemma sweep_from_sorted_perm rows1 : forall rows2,
  rows1 ≡ₚ rows2 ->
  StronglySorted (fun a b => start a <= start b) rows1 ->
  StronglySorted (fun a b => start a <= start b) rows2 ->
  Forall well_formed rows1 ->
  forall cs ce, sweep_from cs ce rows1 = sweep_from cs ce rows2.
Proof.
  induction rows1 as [|a rows1 IH]; intros rows2 Hperm Hs1 Hs2 Hwf cs ce.
  - apply Permutation_nil in Hperm. by subst.
  - assert (Ha : a ∈ rows2) by (rewrite <- Hperm; apply list_elem_of_here).
    apply list_elem_of_split in Ha as (p & q & ->).
    apply Permutation_cons_app_inv in Hperm.
    apply StronglySorted_inv in Hs1 as [Hs1 Hmin].
    apply Forall_cons in Hwf as [Hwa Hwf].
    rewrite Forall_forall in Hmin, Hwf.
    pose proof Hs2 as Hs2'.
    apply StronglySorted_app in Hs2' as (Hpq & Hsp & Hsq).
    apply StronglySorted_inv in Hsq as [Hsq Haq].
    rewrite Forall_forall in Haq.
    assert (Hp : Forall (fun x => start x = start a /\ well_formed x) p).
    { apply Forall_forall. intros x Hx.
      assert (Hx1 : x ∈ rows1) by (rewrite Hperm; apply elem_of_app; by left).
      split; [|by apply Hwf].
      specialize (Hmin x Hx1). simpl in Hmin.
      specialize (Hpq x a Hx (list_elem_of_here _ _)). simpl in Hpq. lia. }
    rewrite sweep_from_front by done. apply sweep_from_cong.
    apply IH; [done|done| |by apply Forall_forall].
    apply StronglySorted_app_2; [|done|done].
    intros x1 x2 H1 H2. apply Hpq; [done|by apply list_elem_of_further].
Qed.

Lemma sweep_as_tail rows c :
  Forall (fun v => c < start v) rows ->
  sweep rows = tail (sweep_from c c rows).
Proof.
  destruct rows as [|v rows]; [done|]. intros [Hv _]%Forall_cons.
  rewrite sweep_cons. simpl.
  destruct (start v <=? c) eqn:Hle; [apply Z.leb_le in Hle; lia|done].
Qed.

Lemma sweep_sorted_perm rows1 rows2 :
  rows1 ≡ₚ rows2 ->
  Sorted (fun a b => start a <= start b) rows1 ->
  Sorted (fun a b => start a <= start b) rows2 ->
  Forall well_formed rows1 ->
  sweep rows1 = sweep rows2.
Proof.
  intros Hperm Hs1 Hs2 Hwf.
  apply Sorted_StronglySorted in Hs1; [|intros a b c ??; lia].
  apply Sorted_StronglySorted in Hs2; [|intros a b c ??; lia].
  destruct rows1 as [|a rows1].
  { apply Permutation_nil in Hperm. by subst. }
  assert (Hlow : Forall (fun v => start a - 1 < start v) (a :: rows1)).
  { apply StronglySorted_inv in Hs1 as [_ Hmin]. constructor; [lia|].
    eapply Forall_impl; [exact Hmin|]. simpl. intros; lia. }
  rewrite (sweep_as_tail (a :: rows1) (start a - 1)) by done.
  rewrite (sweep_as_tail rows2 (start a - 1)) by by rewrite <- Hperm.
  f_equal. by apply sweep_from_sorted_perm.
Qed.

(** Whatever ordering by start the sort picks, the windows are those of
    [collapse_windows]. *)
Lemma collapse_windows_any_order group rows :
  rows ≡ₚ group ->
  Sorted (fun a b => start a <= start b) rows ->
  Forall well_formed group ->
  sweep rows = collapse_windows group.
Proof.
  intros Hperm Hs Hwf. unfold collapse_windows.
  apply sweep_sorted_perm; [|done|apply sort_values_start_sorted|].
  - rewrite Hperm. unfold sort_values_start. by rewrite sort_by_perm.
  - by rewrite Hperm.
Qed.

(** C2: for well-formed visits the collapser sorts by start and sweeps
    (whatever order the sort gives to rows with equal starts), puts every
    visit inside one window, puts two visits that overlap or touch inside
    the same window, and emits only instants that some visit covers; the
    visits 10:00-11:00 and 10:30-11:30, in either row order, give the
    single window 10:00-11:30, one visit and 90 minutes. *)
Theorem collapse_unions_touching_visits :
  (forall group : list Visit,
     Forall well_formed group ->
     (forall rows, rows ≡ₚ group ->
        Sorted (fun a b => start a <= start b) rows ->
        sweep rows = collapse_windows group) /\
     (forall v, v ∈ group ->
        exists w, w ∈ collapse_windows group /\ inside v w) /\
     (forall v1 v2, v1 ∈ group -> v2 ∈ group -> touching v1 v2 ->
        exists w, w ∈ collapse_windows group /\ inside v1 w /\ inside v2 w) /\
     (forall w t, w ∈ collapse_windows group -> covers (fst w) (snd w) t ->
        exists v, v ∈ group /\ covers (start v) (end_ v) t)) /\
  (forall (v1 v2 : Visit) (group : list Visit),
     start v1 = clock 10 0 -> end_ v1 = clock 11 0 ->
     start v2 = clock 10 30 -> end_ v2 = clock 11 30 ->
     group = [v1; v2] \/ group = [v2; v1] ->
     collapse_windows group = [(clock 10 0, clock 11 30)] /\
     c_num_visits (collapse_visits group) = 1%nat /\
     Qeq (c_total_duration_min (collapse_visits group)) (inject_Z 90)).
Proof.
  split.
  - intros group Hwf.
    split; [intros rows ??; by apply collapse_windows_any_order|].
    split; [apply collapse_windows_inside|].
    split; [|apply collapse_windows_covered].
    intros v1 v2 Hv1 Hv2 Ht.
    destruct (collapse_windows_inside group v1 Hv1) as (w1 & Hw1 & Hin1).
    destruct (collapse_windows_inside group v2 Hv2) as (w2 & Hw2 & Hin2).
    exists w1. split; [done|]. split; [done|].
    apply list_elem_of_lookup in Hw1 as [i Hi].
    apply list_elem_of_lookup in Hw2 as [j Hj].
    pose proof (gap_pairwise _ (collapse_windows_gap group)
                  (collapse_windows_proper group Hwf)) as Hgap.
    unfold touching in Ht. unfold inside in *.
    destruct (lt_eq_lt_dec i j) as [[Hlt| ->]|Hlt].
    + specialize (Hgap _ _ _ _ Hi Hj Hlt). unfold gap in Hgap. lia.
    + rewrite Hi in Hj. injection Hj as <-. done.
    + specialize (Hgap _ _ _ _ Hj Hi Hlt). unfold gap in Hgap. lia.
  - intros [s1 e1 d1 p1 la1 ln1] [s2 e2 d2 p2 la2 ln2] group.
    simpl. intros -> -> -> -> [-> | ->]; vm_compute; repeat split; congruence.
Qed.

Lemma two_overlapping_well_formed : Forall well_formed two_overlapping.
Proof. repeat constructor; unfold well_formed, clock; simpl; lia. Qed.

Lemma collapse_unions_touching_visits_witness :
  Forall well_formed two_overlapping /\
  (forall v1 v2, v1 ∈ two_overlapping -> v2 ∈ two_overlapping ->
     touching v1 v2 ->
     exists w, w ∈ collapse_windows two_overlapping /\
               inside v1 w /\ inside v2 w) /\
  collapse_windows two_overlapping = [(clock 10 0, clock 11 30)] /\
  c_num_visits (collapse_visits two_overlapping) = 1%nat /\
  Qeq (c_total_duration_min (collapse_visits two_overlapping)) (inject_Z 90).
Proof.
  split; [exact two_overlapping_well_formed|]. split.
  - exact (proj1 (proj2 (proj2
      (proj1 collapse_unions_touching_visits two_overlapping
         two_overlapping_well_formed)))).
  - apply (proj2 collapse_unions_touching_visits
             (parsed_visit "A" (clock 10 0) (clock 11 0)
                (inject_Z 38) (inject_Z (-78)))
             (parsed_visit "A" (clock 10 30) (clock 11 30)
                (inject_Z 38) (inject_Z (-78))));
      try reflexivity.
    by left.
Defined.




(** Rows that all start at the same instant.  While the open window ends
    before that instant, each row closes it and opens its own; from the
    first row that ends at that instant or later, every row is taken into
    the open window.  So the number of windows is one more than the number
    of rows that the sort puts before the first such row. *)
Lemma sweep_from_same_start_open s rest : forall e,
  s <= e -> Forall (fun v => start v = s) rest ->
  sweep_from s e rest
  = [(s, fold_left (fun e v => Z.max e (end_ v)) rest e)].
Proof.
  induction rest as [|v rest IH]; intros e He Hrest; simpl; [done|].
  apply Forall_cons in Hrest as [-> Hrest].
  rewrite (proj2 (Z.leb_le _ _) He). apply IH; [lia|done].
Qed.

Lemma sweep_from_same_start_closed s f rest back : forall cs ce,
  ce < s ->
  Forall (fun v => start v = s /\ end_ v < s) back ->
  start f = s -> s <= end_ f ->
  Forall (fun v => start v = s) rest ->
  sweep_from cs ce (back ++ f :: rest)
  = (cs, ce) :: map interval back
    ++ [(s, fold_left (fun e v => Z.max e (end_ v)) rest (end_ f))].
Proof.
  induction back as [|b back IH]; intros cs ce Hce Hback Hf Hfe Hrest; simpl.
  - rewrite Hf, (proj2 (Z.leb_gt _ _) Hce).
    by rewrite sweep_from_same_start_open.
  - apply Forall_cons in Hback as [[Hb Hbe] Hback].
    rewrite Hb, (proj2 (Z.leb_gt _ _) Hce). f_equal.
    rewrite <- Hb at 1. by apply IH.
Qed.

Lemma sweep_same_start s f rest back :
  Forall (fun v => start v = s /\ end_ v < s) back ->
  start f = s -> s <= end_ f ->
  Forall (fun v => start v = s) rest ->
  sweep (back ++ f :: rest)
  = map interval back
    ++ [(s, fold_left (fun e v => Z.max e (end_ v)) rest (end_ f))].
Proof.
  intros Hback Hf Hfe Hrest. destruct back as [|b back]; simpl.
  - rewrite sweep_cons, Hf. by apply sweep_from_same_start_open.
  - apply Forall_cons in Hback as [[Hb Hbe] Hback].
    rewrite sweep_cons. by apply sweep_from_same_start_closed; [lia|..].
Qed.


(** C7, as the code has it: a visit that ends before it starts is not
    rejected; alone in its group it is swept into one window equal to the
    visit, counted as one visit of negative duration. *)
Theorem collapse_keeps_backwards_visit (v : Visit) :
  end_ v < start v ->
  collapse_windows [v] = [(start v, end_ v)] /\
  c_num_visits (collapse_visits [v]) = 1%nat /\
  Qlt (c_total_duration_min (collapse_visits [v])) (inject_Z 0).
Proof.
  intros Hv. split; [done|]. split; [done|].
  unfold collapse_visits, collapse_windows, total_minutes, qsum. simpl.
  unfold window_minutes, minutes_between, total_seconds. simpl.
  unfold Qlt, Qplus, Qdiv, Qmult, Qinv. simpl. lia.
Qed.

Lemma collapse_keeps_backwards_visit_witness :
  end_ backwards_visit < start backwards_visit /\
  collapse_windows [backwards_visit] = [(clock 10 0, clock 9 0)] /\
  c_num_visits (collapse_visits [backwards_visit]) = 1%nat /\
  Qlt (c_total_duration_min (collapse_visits [backwards_visit])) (inject_Z 0).
Proof.
  assert (H : end_ backwards_visit < start backwards_visit).
  { unfold backwards_visit, clock. simpl. lia. }
  split; [exact H|]. exact (collapse_keeps_backwards_visit backwards_visit H).
Defined.

(** C7 as stated fails: the group made of one backwards visit is collapsed
    without any error into a window of minus sixty minutes. *)
Lemma backwards_visit_not_rejected :
  end_ backwards_visit < start backwards_visit /\
  collapse_visits [backwards_visit]
  = {| c_lat := Some (inject_Z 38);
       c_lng := Some (inject_Z (-78));
       c_num_visits := 1;
       c_total_duration_min := Qmake (-3600000000000) 60000000000 |} /\
  Qeq (c_total_duration_min (collapse_visits [backwards_visit]))
      (inject_Z (-60)).
Proof. vm_compute. repeat split; congruence. Qed.

(** ** The merger: one candidate pair *)

Lemma overlaps_true v1 v2 :
  overlaps v1 v2 = true <->
  Z.max (start v1) (start v2) < Z.min (end_ v1) (end_ v2).
Proof. unfold overlaps. apply Z.ltb_lt. Qed.

Lemma Qltb_true a b : Qltb a b = true <-> Qlt a b.
Proof.
  unfold Qltb. rewrite negb_true_iff. split.
  - intros H. apply Qnot_le_lt. intros Hle.
    apply Qle_bool_iff in Hle. congruence.
  - intros H. destruct (Qle_bool b a) eqn:Hle; [|done].
    apply Qle_bool_iff in Hle. by apply Qlt_not_le in H.
Qed.

Lemma Qle_bool_false a b : Qle_bool a b = false <-> Qlt b a.
Proof.
  rewrite <- Qltb_true. unfold Qltb. by rewrite negb_true_iff.
Qed.

Lemma scan_visits2_spec pid2 v1 visits2 st :
  scan_visits2 pid2 v1 visits2 st
  = if existsb (overlaps v1) visits2 then (absorb pid2 st, true)
    else (st, false).
Proof.
  induction visits2 as [|v2 rest IH]; simpl; [done|].
  by destruct (overlaps v1 v2).
Qed.

Lemma scan_visits1_spec pid2 visits1 visits2 st :
  scan_visits1 pid2 visits1 visits2 st
  = if existsb (fun v1 => existsb (overlaps v1) visits2) visits1
    then (absorb pid2 st, true) else (st, false).
Proof.
  induction visits1 as [|v1 rest IH]; simpl; [done|].
  rewrite scan_visits2_spec.
  by destruct (existsb (overlaps v1) visits2).
Qed.

Lemma some_overlap_existsb visits1 visits2 :
  existsb (fun v1 => existsb (overlaps v1) visits2) visits1 = true
  <-> some_overlap visits1 visits2.
Proof.
  unfold some_overlap. rewrite existsb_exists. split.
  - intros (v1 & Hv1 & H). apply existsb_exists in H as (v2 & Hv2 & H).
    exists v1, v2. rewrite !list_elem_of_In. by rewrite <- overlaps_true.
  - intros (v1 & v2 & Hv1 & Hv2 & H). exists v1.
    rewrite <- list_elem_of_In. split; [done|].
    apply existsb_exists. exists v2. rewrite <- list_elem_of_In.
    by rewrite overlaps_true.
Qed.

(** The scan is over at the first overlapping pair: rows after it are not
    looked at. *)
Lemma scan_visits2_stops pid2 v1 l2 l2' st :
  snd (scan_visits2 pid2 v1 l2 st) = true ->
  scan_visits2 pid2 v1 (l2 ++ l2') st = scan_visits2 pid2 v1 l2 st.
Proof.
  induction l2 as [|v2 l2 IH]; simpl; [done|].
  destruct (overlaps v1 v2); [done|apply IH].
Qed.

Lemma scan_visits1_stops pid2 l1 l1' visits2 st :
  snd (scan_visits1 pid2 l1 visits2 st) = true ->
  scan_visits1 pid2 (l1 ++ l1') visits2 st = scan_visits1 pid2 l1 visits2 st.
Proof.
  induction l1 as [|v1 l1 IH]; simpl; [done|].
  rewrite scan_visits2_spec.
  destruct (existsb (overlaps v1) visits2); [done|apply IH].
Qed.

Section Pair.
Variable series_sum : list Q -> Q.
Variable geodesic_m : Q * Q -> Q * Q -> Q.
Variable df_visits : list Visit.
Variable distance_threshold_m : Q.
Variable min_visits : Z.
Variables place1 place2 : PlaceRow.

Local Abbreviation step :=
  (consider series_sum geodesic_m df_visits distance_threshold_m min_visits).
Local Abbreviation visits1 := (visits_of df_visits (ps_placeID place1)).
Local Abbreviation visits2 := (visits_of df_visits (ps_placeID place2)).

Lemma consider_cases st :
  step place1 st place2 = st \/
  (step place1 st place2 = absorb (ps_placeID place2) st /\
   ps_placeID place1 <> ps_placeID place2 /\
   ps_placeID place2 ∉ snd st).
Proof.
  unfold consider.
  destruct (bool_decide (ps_placeID place1 = ps_placeID place2)) eqn:H1;
    simpl; [by left|].
  destruct (bool_decide (ps_placeID place2 ∈ snd st)) eqn:H2;
    simpl; [by left|].
  apply bool_decide_eq_false in H1. apply bool_decide_eq_false in H2.
  destruct (Qle_bool _ _); [|by left].
  unfold merge_within.
  destruct (_ <? _); [by right|].
  destruct (_ && _); [by right|].
  rewrite scan_visits1_spec.
  destruct (existsb _ _); simpl; [by right|by left].
Qed.

Lemma consider_within st :
  ps_placeID place1 <> ps_placeID place2 ->
  ps_placeID place2 ∉ snd st ->
  Qle (centroid_distance geodesic_m place1 place2) distance_threshold_m ->
  step place1 st place2 = merge_within series_sum df_visits min_visits
      place1 place2 st.
Proof.
  intros H1 H2 Hd. unfold consider.
  rewrite (bool_decide_eq_false_2 _ H1), (bool_decide_eq_false_2 _ H2).
  simpl. apply Qle_bool_iff in Hd. by rewrite Hd.
Qed.

Lemma consider_beyond st :
  Qlt distance_threshold_m (centroid_distance geodesic_m place1 place2) ->
  step place1 st place2 = st.
Proof.
  intros Hd. unfold consider. apply Qle_bool_false in Hd.
  rewrite Hd. by destruct (_ || _).
Qed.

Lemma merge_within_sparse st :
  Z.of_nat (length visits2) < min_visits ->
  merge_within series_sum df_visits min_visits place1 place2 st
  = absorb (ps_placeID place2) st.
Proof.
  intros H. unfold merge_within. apply Z.ltb_lt in H.
  by rewrite H.
Qed.

Lemma merge_within_heavy st :
  Qlt (inject_Z 700) (series_sum (map duration_min visits1)) ->
  Qlt (inject_Z 700) (series_sum (map duration_min visits2)) ->
  merge_within series_sum df_visits min_visits place1 place2 st
  = absorb (ps_placeID place2) st.
Proof.
  intros H1 H2. unfold merge_within.
  apply Qltb_true in H1. apply Qltb_true in H2. rewrite H1, H2.
  by destruct (_ <? _).
Qed.

Lemma merge_within_scan st :
  min_visits <= Z.of_nat (length visits2) ->
  ~ (Qlt (inject_Z 700) (series_sum (map duration_min visits1)) /\
     Qlt (inject_Z 700) (series_sum (map duration_min visits2))) ->
  merge_within series_sum df_visits min_visits place1 place2 st
  = fst (scan_visits1 (ps_placeID place2) visits1 visits2 st).
Proof.
  intros Hn Hh. unfold merge_within.
  apply Z.ltb_ge in Hn. rewrite Hn.
  destruct (Qltb _ _ && Qltb _ _) eqn:Hb; [|done].
  apply andb_true_iff in Hb as [H1 H2].
  apply Qltb_true in H1. apply Qltb_true in H2. by destruct Hh.
Qed.
End Pair.

(** ** The merger: one group *)

Section Group.
Variable series_sum : list Q -> Q.
Variable geodesic_m : Q * Q -> Q * Q -> Q.
Variable df_visits : list Visit.
Variable distance_threshold_m : Q.
Variable min_visits : Z.
Variable place1 : PlaceRow.

Local Abbreviation step :=
  (consider series_sum geodesic_m df_visits distance_threshold_m
     min_visits place1).

Lemma consider_mono st place2 x :
  (x ∈ fst st -> x ∈ fst (step st place2)) /\
  (x ∈ snd st -> x ∈ snd (step st place2)).
Proof.
  destruct (consider_cases series_sum geodesic_m df_visits distance_threshold_m
              min_visits place1 place2 st) as [H|[H _]];
    rewrite H; [done|].
  unfold absorb; simpl. split; set_solver.
Qed.

Lemma fold_consider_mono rows : forall st x,
  (x ∈ fst st -> x ∈ fst (fold_left step rows st)) /\
  (x ∈ snd st -> x ∈ snd (fold_left step rows st)).
Proof.
  induction rows as [|r rows IH]; intros st x; simpl; [done|].
  destruct (IH (step st r) x) as [IH1 IH2].
  destruct (consider_mono st r x) as [H1 H2]. split; auto.
Qed.

(** Every identifier marked while the group is built is in the group. *)
Lemma fold_consider_used (used0 : gset string) rows : forall st,
  (forall x, x ∈ snd st -> x ∈ used0 \/ x ∈ fst st) ->
  forall x, x ∈ snd (fold_left step rows st) ->
            x ∈ used0 \/ x ∈ fst (fold_left step rows st).
Proof.
  induction rows as [|r rows IH]; intros st Hst; simpl; [done|].
  apply IH. intros x.
  destruct (consider_cases series_sum geodesic_m df_visits distance_threshold_m
              min_visits place1 r st) as [H|[H _]];
    rewrite H; [apply Hst|].
  unfold absorb; simpl. intros [Hx|Hx]%elem_of_union.
  - right. set_solver.
  - destruct (Hst x Hx); [by left|right; set_solver].
Qed.

(** A row that is absorbed whenever it is considered unmarked ends up
    in the group. *)
Lemma fold_consider_absorbs rows (used0 : gset string) place2 :
  place2 ∈ rows ->
  ps_placeID place2 ∉ used0 ->
  (forall st, ps_placeID place2 ∉ snd st ->
              step st place2 = absorb (ps_placeID place2) st) ->
  ps_placeID place2 ∈ fst (fold_left step rows ([ps_placeID place1], used0)).
Proof.
  intros Hin Hused Habs.
  apply list_elem_of_split in Hin as (l1 & l2 & ->).
  rewrite fold_left_app. simpl.
  set (st1 := fold_left step l1 ([ps_placeID place1], used0)).
  apply fold_consider_mono.
  destruct (decide (ps_placeID place2 ∈ snd st1)) as [Hu|Hu].
  - apply consider_mono.
    destruct (fold_consider_used used0 l1 ([ps_placeID place1], used0))
      with (x := ps_placeID place2) as [?|?]; [by left|exact Hu|done|done].
  - rewrite (Habs _ Hu). unfold absorb; simpl. set_solver.
Qed.

(** An identifier whose rows are never absorbed stays out of the group. *)
Lemma fold_consider_leaves pid2 rows : forall st,
  (forall r st', r ∈ rows -> ps_placeID r = pid2 -> step st' r = st') ->
  pid2 ∉ fst st -> pid2 ∉ snd st ->
  (pid2 ∉ fst (fold_left step rows st)) /\
  (pid2 ∉ snd (fold_left step rows st)).
Proof.
  induction rows as [|r rows IH]; intros st Hrows H1 H2; simpl; [done|].
  assert (Hstep : (pid2 ∉ fst (step st r)) /\ (pid2 ∉ snd (step st r))).
  { destruct (decide (ps_placeID r = pid2)) as [Heq|Hne].
    - rewrite (Hrows r st); [done|apply list_elem_of_here|done].
    - destruct
        (consider_cases series_sum geodesic_m df_visits distance_threshold_m
                  min_visits place1 r st) as [H|[H _]];
        rewrite H; [done|].
      unfold absorb; simpl. split.
      + intros [?|Hx]%elem_of_app; [done|].
        apply list_elem_of_singleton in Hx. congruence.
      + intros [Hx|?]%elem_of_union; [|done].
        apply elem_of_singleton in Hx. congruence. }
  destruct Hstep. apply IH; [|done|done].
  intros r' st' Hr'. apply Hrows. by apply list_elem_of_further.
Qed.
End Group.

Lemma placeID_determines_row (summary : list PlaceRow) r1 r2 :
  NoDup (map ps_placeID summary) ->
  r1 ∈ summary -> r2 ∈ summary -> ps_placeID r1 = ps_placeID r2 -> r1 = r2.
Proof.
  induction summary as [|r rows IH]; simpl; intros Hnd H1 H2 Heq.
  - by apply elem_of_nil in H1.
  - apply NoDup_cons in Hnd as [Hr Hnd].
    assert (Hmem : forall x, x ∈ rows -> ps_placeID x ∈ map ps_placeID rows).
    { intros x Hx. apply list_elem_of_In, in_map, list_elem_of_In, Hx. }
    apply elem_of_cons in H1 as [->|H1]; apply elem_of_cons in H2 as [->|H2].
    + done.
    + destruct Hr. rewrite Heq. by apply Hmem.
    + destruct Hr. rewrite <- Heq. by apply Hmem.
    + by apply IH.
Qed.

(** ** The merger: the three reasons to merge *)

Lemma merge_within_decides series_sum df minv place1 place2 st :
  (merge_condition series_sum df minv place1 place2 ->
   merge_within series_sum df minv place1 place2 st
   = absorb (ps_placeID place2) st) /\
  (~ merge_condition series_sum df minv place1 place2 ->
   merge_within series_sum df minv place1 place2 st = st).
Proof.
  unfold merge_condition, merge_within.
  set (visits1 := visits_of df (ps_placeID place1)).
  set (visits2 := visits_of df (ps_placeID place2)).
  destruct (Z.of_nat (length visits2) <? minv) eqn:Hn.
  { apply Z.ltb_lt in Hn. split; [done|]. intros []. by left. }
  apply Z.ltb_ge in Hn.
  destruct (Qltb _ _ && Qltb _ _) eqn:Hh.
  { apply andb_true_iff in Hh as [H1%Qltb_true H2%Qltb_true].
    split; [done|]. intros []. right. by left. }
  rewrite scan_visits1_spec.
  destruct (existsb _ visits1) eqn:Ho; simpl.
  { apply some_overlap_existsb in Ho. split; [done|]. intros []. by right; right. }
  split; [|done]. intros [Hs|[[H1 H2]|Hs]].
  - lia.
  - apply Qltb_true in H1. apply Qltb_true in H2.
    rewrite H1, H2 in Hh. done.
  - apply some_overlap_existsb in Hs. congruence.
Qed.

(** C4: a candidate pair within the distance threshold whose second place
    has fewer raw visits than [min_visits] is merged, whatever the
    overlaps and the durations: the loop body adds [place2] to the group
    and marks it, and the finished group of [place1] holds it. *)
Theorem sparse_absorption (series_sum : list Q -> Q)
    (geodesic_m : Q * Q -> Q * Q -> Q)
    (df_visits : list Visit) (place_summary : list PlaceRow)
    (distance_threshold_m : Q) (min_visits : Z) (place1 place2 : PlaceRow) :
  ps_placeID place1 <> ps_placeID place2 ->
  Qle (centroid_distance geodesic_m place1 place2) distance_threshold_m ->
  Z.of_nat (length (visits_of df_visits (ps_placeID place2))) < min_visits ->
  (forall st : GroupState, ps_placeID place2 ∉ snd st ->
     consider series_sum geodesic_m df_visits distance_threshold_m min_visits
              place1 st place2
     = absorb (ps_placeID place2) st) /\
  (forall used : gset string,
     place2 ∈ place_summary -> ps_placeID place2 ∉ used ->
     ps_placeID place2 ∈
       fst (build_group series_sum geodesic_m df_visits place_summary
              distance_threshold_m min_visits place1 used)).
Proof.
  intros Hne Hd Hn.
  assert (Hstep : forall st : GroupState, ps_placeID place2 ∉ snd st ->
     consider series_sum geodesic_m df_visits distance_threshold_m min_visits
              place1 st place2 = absorb (ps_placeID place2) st).
  { intros st Hu. rewrite consider_within by done.
    by apply merge_within_sparse. }
  split; [done|]. intros used Hin Hu.
  by apply fold_consider_absorbs.
Qed.

Lemma sparse_absorption_witness :
  ps_num_visits (summary_row five_and_one "A") = 5%nat /\
  ps_num_visits (summary_row five_and_one "B") = 1%nat /\
  ~ some_overlap (visits_of five_and_one "A") (visits_of five_and_one "B") /\
  consider qsum grid_distance_m five_and_one (inject_Z 130) 2
           (summary_row five_and_one "A") (["A"], ∅)
           (summary_row five_and_one "B")
  = (["A"; "B"], {["B"]} ∪ ∅) /\
  "B" ∈ fst (build_group qsum grid_distance_m five_and_one
               (place_summary_of five_and_one) (inject_Z 130) 2
               (summary_row five_and_one "A") ∅).
Proof.
  set (place1 := summary_row five_and_one "A").
  set (place2 := summary_row five_and_one "B").
  assert (H : ps_placeID place1 <> ps_placeID place2) by done.
  assert (Hd : Qle (centroid_distance grid_distance_m place1 place2)
                   (inject_Z 130)) by (by apply Qle_bool_iff).
  assert (Hn : Z.of_nat (length (visits_of five_and_one (ps_placeID place2)))
               < 2) by done.
  destruct (sparse_absorption qsum grid_distance_m five_and_one
              (place_summary_of five_and_one) (inject_Z 130) 2
              place1 place2 H Hd Hn) as [Hstep Hgroup].
  split; [done|]. split; [done|]. split.
  { intros Ho. apply some_overlap_existsb in Ho. by vm_compute in Ho. }
  split.
  - apply (Hstep (["A"], ∅)). apply not_elem_of_empty.
  - apply Hgroup; [|apply not_elem_of_empty].
    apply list_elem_of_In. vm_compute. right. by left.
Defined.

(** C3: a candidate pair within the distance threshold, with at least
    [min_visits] raw visits at [place2], whose two places each total more
    than 700 minutes of raw visits, is merged whether or not any of their
    visits overlap.  The totals are those of lines 56-57: the floats that
    the column sum returns, however it rounds. *)
Theorem heavy_dual_merge (series_sum : list Q -> Q)
    (geodesic_m : Q * Q -> Q * Q -> Q)
    (df_visits : list Visit) (place_summary : list PlaceRow)
    (distance_threshold_m : Q) (min_visits : Z) (place1 place2 : PlaceRow) :
  ps_placeID place1 <> ps_placeID place2 ->
  Qle (centroid_distance geodesic_m place1 place2) distance_threshold_m ->
  min_visits <= Z.of_nat (length (visits_of df_visits (ps_placeID place2))) ->
  Qlt (inject_Z 700)
      (series_sum
         (map duration_min (visits_of df_visits (ps_placeID place1)))) ->
  Qlt (inject_Z 700)
      (series_sum
         (map duration_min (visits_of df_visits (ps_placeID place2)))) ->
  (forall st : GroupState, ps_placeID place2 ∉ snd st ->
     consider series_sum geodesic_m df_visits distance_threshold_m min_visits
              place1 st place2
     = absorb (ps_placeID place2) st) /\
  (forall used : gset string,
     place2 ∈ place_summary -> ps_placeID place2 ∉ used ->
     ps_placeID place2 ∈
       fst (build_group series_sum geodesic_m df_visits place_summary
              distance_threshold_m min_visits place1 used)).
Proof.
  intros Hne Hd Hn H1 H2.
  assert (Hstep : forall st : GroupState, ps_placeID place2 ∉ snd st ->
     consider series_sum geodesic_m df_visits distance_threshold_m min_visits
              place1 st place2 = absorb (ps_placeID place2) st).
  { intros st Hu. rewrite consider_within by done.
    by apply merge_within_heavy. }
  split; [done|]. intros used Hin Hu.
  by apply fold_consider_absorbs.
Qed.

Lemma heavy_dual_merge_witness :
  ~ some_overlap (visits_of two_heavy "A") (visits_of two_heavy "B") /\
  Qeq (ps_total_duration_min (summary_row two_heavy "A")) (inject_Z 720) /\
  Qeq (ps_total_duration_min (summary_row two_heavy "B")) (inject_Z 720) /\
  consider qsum grid_distance_m two_heavy (inject_Z 130) 2
           (summary_row two_heavy "A") (["A"], ∅) (summary_row two_heavy "B")
  = (["A"; "B"], {["B"]} ∪ ∅) /\
  "B" ∈ fst (build_group qsum grid_distance_m two_heavy
               (place_summary_of two_heavy) (inject_Z 130) 2
               (summary_row two_heavy "A") ∅).
Proof.
  set (place1 := summary_row two_heavy "A").
  set (place2 := summary_row two_heavy "B").
  assert (H : ps_placeID place1 <> ps_placeID place2) by done.
  assert (Hd : Qle (centroid_distance grid_distance_m place1 place2)
                   (inject_Z 130)) by (by apply Qle_bool_iff).
  assert (Hn : 2 <= Z.of_nat (length (visits_of two_heavy (ps_placeID place2))))
    by done.
  assert (H1 : Qlt (inject_Z 700)
      (qsum (map duration_min (visits_of two_heavy (ps_placeID place1)))))
    by (by apply Qltb_true).
  assert (H2 : Qlt (inject_Z 700)
      (qsum (map duration_min (visits_of two_heavy (ps_placeID place2)))))
    by (by apply Qltb_true).
  destruct (heavy_dual_merge qsum grid_distance_m two_heavy
              (place_summary_of two_heavy) (inject_Z 130) 2
              place1 place2 H Hd Hn H1 H2) as [Hstep Hgroup].
  split.
  { intros Ho. apply some_overlap_existsb in Ho. by vm_compute in Ho. }
  split; [by vm_compute|]. split; [by vm_compute|]. split.
  - apply (Hstep (["A"], ∅)). apply not_elem_of_empty.
  - apply Hgroup; [|apply not_elem_of_empty].
    apply list_elem_of_In. vm_compute. right. by left.
Defined.

(** C5: for a candidate pair within the distance threshold that is
    neither sparse nor doubly heavy (by the totals of lines 56-57, the
    floats that the column sum returns, however it rounds), the loop body
    merges [place2] exactly when some visit of [place1] strictly overlaps
    some visit of [place2], and otherwise leaves the group and the marks
    as they are; the finished group of [place1] holds [place2] under the
    same condition; and each of the two scanning loops is over at its
    first overlapping visit. *)
Theorem overlap_decides_merge (series_sum : list Q -> Q)
    (geodesic_m : Q * Q -> Q * Q -> Q)
    (df_visits : list Visit) (place_summary : list PlaceRow)
    (distance_threshold_m : Q) (min_visits : Z) (place1 place2 : PlaceRow) :
  ps_placeID place1 <> ps_placeID place2 ->
  Qle (centroid_distance geodesic_m place1 place2) distance_threshold_m ->
  min_visits <= Z.of_nat (length (visits_of df_visits (ps_placeID place2))) ->
  ~ (Qlt (inject_Z 700)
       (series_sum
          (map duration_min (visits_of df_visits (ps_placeID place1)))) /\
     Qlt (inject_Z 700)
       (series_sum
          (map duration_min (visits_of df_visits (ps_placeID place2))))) ->
  (forall st : GroupState, ps_placeID place2 ∉ snd st ->
     (some_overlap (visits_of df_visits (ps_placeID place1))
                   (visits_of df_visits (ps_placeID place2)) ->
      consider series_sum geodesic_m df_visits distance_threshold_m min_visits
               place1 st place2
      = absorb (ps_placeID place2) st) /\
     (~ some_overlap (visits_of df_visits (ps_placeID place1))
                     (visits_of df_visits (ps_placeID place2)) ->
      consider series_sum geodesic_m df_visits distance_threshold_m min_visits
               place1 st place2
      = st)) /\
  (forall used : gset string,
     NoDup (map ps_placeID place_summary) ->
     place2 ∈ place_summary -> ps_placeID place2 ∉ used ->
     (ps_placeID place2 ∈
        fst (build_group series_sum geodesic_m df_visits place_summary
               distance_threshold_m min_visits place1 used)
      <-> some_overlap (visits_of df_visits (ps_placeID place1))
                       (visits_of df_visits (ps_placeID place2)))) /\
  (forall (st : GroupState) (rows1 rows1' visits2 : list Visit),
     snd (scan_visits1 (ps_placeID place2) rows1 visits2 st) = true ->
     scan_visits1 (ps_placeID place2) (rows1 ++ rows1') visits2 st
     = scan_visits1 (ps_placeID place2) rows1 visits2 st) /\
  (forall (st : GroupState) (v1 : Visit) (rows2 rows2' : list Visit),
     snd (scan_visits2 (ps_placeID place2) v1 rows2 st) = true ->
     scan_visits2 (ps_placeID place2) v1 (rows2 ++ rows2') st
     = scan_visits2 (ps_placeID place2) v1 rows2 st).
Proof.
  intros Hne Hd Hn Hh.
  set (visits1 := visits_of df_visits (ps_placeID place1)).
  set (visits2 := visits_of df_visits (ps_placeID place2)).
  assert (Hstep : forall st : GroupState, ps_placeID place2 ∉ snd st ->
    consider series_sum geodesic_m df_visits distance_threshold_m min_visits
             place1 st place2
    = if existsb (fun v1 => existsb (overlaps v1) visits2) visits1
      then absorb (ps_placeID place2) st else st).
  { intros st Hu. rewrite consider_within by done.
    rewrite merge_within_scan by done. rewrite scan_visits1_spec.
    fold visits1 visits2. by destruct (existsb _ visits1). }
  split; [|split; [|split]].
  - intros st Hu. rewrite (Hstep st Hu). split.
    + intros Ho%some_overlap_existsb. by rewrite Ho.
    + intros Ho. destruct (existsb _ visits1) eqn:He; [|done].
      by apply some_overlap_existsb in He.
  - intros used Hnd Hin Hu.
    destruct (existsb (fun v1 => existsb (overlaps v1) visits2) visits1)
      eqn:He.
    + split; [intros _; by apply some_overlap_existsb|intros _].
      apply fold_consider_absorbs; [done..|].
      intros st Hst. by rewrite (Hstep st Hst).
    + split; [|intros Ho%some_overlap_existsb; congruence].
      intros Hmem. exfalso. revert Hmem.
      apply
          (fold_consider_leaves series_sum geodesic_m df_visits
             distance_threshold_m
               min_visits place1 (ps_placeID place2) place_summary).
      * intros r st' Hr Hpid.
        assert (r = place2) as -> by by apply (placeID_determines_row place_summary).
        destruct
            (consider_cases series_sum geodesic_m df_visits distance_threshold_m
                    min_visits place1 place2 st') as [H|(_ & _ & Hst')];
          [done|by rewrite (Hstep st' Hst')].
      * simpl. intros Heq%list_elem_of_singleton. congruence.
      * done.
  - intros st rows1 rows1' vs2. apply scan_visits1_stops.
  - intros st v1 rows2 rows2'. apply scan_visits2_stops.
Qed.

Lemma overlap_decides_merge_witness :
  (consider qsum grid_distance_m (two_and_two north_130m 15) (inject_Z 130) 2
            (summary_row (two_and_two north_130m 15) "A") (["A"], ∅)
            (summary_row (two_and_two north_130m 15) "B")
   = (["A"; "B"], {["B"]} ∪ ∅)) /\
  (consider qsum grid_distance_m (two_and_two north_130m 30) (inject_Z 130) 2
            (summary_row (two_and_two north_130m 30) "A") (["A"], ∅)
            (summary_row (two_and_two north_130m 30) "B")
   = (["A"], ∅)).
Proof.
  split.
  - set (df := two_and_two north_130m 15).
    assert (H : ps_placeID (summary_row df "A") <> ps_placeID (summary_row df "B"))
      by done.
    assert (Hd : Qle (centroid_distance grid_distance_m (summary_row df "A")
                        (summary_row df "B")) (inject_Z 130))
      by (by apply Qle_bool_iff).
    assert (Hn : 2 <= Z.of_nat (length (visits_of df
                   (ps_placeID (summary_row df "B"))))) by done.
    assert (Hh : ~ (Qlt (inject_Z 700) (qsum (map duration_min (visits_of df
                      (ps_placeID (summary_row df "A"))))) /\
                    Qlt (inject_Z 700) (qsum (map duration_min (visits_of df
                      (ps_placeID (summary_row df "B"))))))).
    { intros [H1%Qltb_true _]. by vm_compute in H1. }
    destruct
        (overlap_decides_merge qsum grid_distance_m df (place_summary_of df)
                (inject_Z 130) 2 _ _ H Hd Hn Hh) as [Hstep _].
    apply (Hstep (["A"], ∅)); [apply not_elem_of_empty|].
    apply some_overlap_existsb. by vm_compute.
  - set (df := two_and_two north_130m 30).
    assert (H : ps_placeID (summary_row df "A") <> ps_placeID (summary_row df "B"))
      by done.
    assert (Hd : Qle (centroid_distance grid_distance_m (summary_row df "A")
                        (summary_row df "B")) (inject_Z 130))
      by (by apply Qle_bool_iff).
    assert (Hn : 2 <= Z.of_nat (length (visits_of df
                   (ps_placeID (summary_row df "B"))))) by done.
    assert (Hh : ~ (Qlt (inject_Z 700) (qsum (map duration_min (visits_of df
                      (ps_placeID (summary_row df "A"))))) /\
                    Qlt (inject_Z 700) (qsum (map duration_min (visits_of df
                      (ps_placeID (summary_row df "B"))))))).
    { intros [H1%Qltb_true _]. by vm_compute in H1. }
    destruct
        (overlap_decides_merge qsum grid_distance_m df (place_summary_of df)
                (inject_Z 130) 2 _ _ H Hd Hn Hh) as [Hstep _].
    apply (Hstep (["A"], ∅)); [apply not_elem_of_empty|].
    intros Ho%some_overlap_existsb. by vm_compute in Ho.
Defined.

(** C6, as the code has it: the distance test is inclusive and is only a
    gate.  A candidate pair exactly [distance_threshold_m] apart goes on to
    the three merge conditions (the dual-heavy one on the totals that the
    column sum returns, however it rounds), and is merged when one of them
    holds and left alone when none does; a pair strictly beyond the
    threshold is never merged, and [place2] stays out of the group of
    [place1]. *)
Theorem distance_gate_inclusive (series_sum : list Q -> Q)
    (geodesic_m : Q * Q -> Q * Q -> Q)
    (df_visits : list Visit) (place_summary : list PlaceRow)
    (distance_threshold_m : Q) (min_visits : Z) (place1 place2 : PlaceRow) :
  ps_placeID place1 <> ps_placeID place2 ->
  (Qeq (centroid_distance geodesic_m place1 place2) distance_threshold_m ->
   forall st : GroupState, ps_placeID place2 ∉ snd st ->
     (merge_condition series_sum df_visits min_visits place1 place2 ->
      consider series_sum geodesic_m df_visits distance_threshold_m min_visits
               place1 st place2
      = absorb (ps_placeID place2) st) /\
     (~ merge_condition series_sum df_visits min_visits place1 place2 ->
      consider series_sum geodesic_m df_visits distance_threshold_m min_visits
               place1 st place2
      = st)) /\
  (Qlt distance_threshold_m (centroid_distance geodesic_m place1 place2) ->
   (forall st : GroupState,
      consider series_sum geodesic_m df_visits distance_threshold_m min_visits
               place1 st place2
      = st) /\
   (forall used : gset string,
      NoDup (map ps_placeID place_summary) ->
      place2 ∈ place_summary -> ps_placeID place2 ∉ used ->
      ps_placeID place2 ∉
        fst (build_group series_sum geodesic_m df_visits place_summary
               distance_threshold_m min_visits place1 used))).
Proof.
  intros Hne. split.
  - intros Hd st Hu.
    rewrite consider_within; [|done|done|].
    + apply merge_within_decides.
    + apply Qle_lteq. by right.
  - intros Hd. split; [intros st; by apply consider_beyond|].
    intros used Hnd Hin Hu.
    apply
      (fold_consider_leaves series_sum geodesic_m df_visits distance_threshold_m
             min_visits place1 (ps_placeID place2) place_summary).
    + intros r st' Hr Hpid.
      assert (r = place2) as -> by by apply (placeID_determines_row place_summary).
      by apply consider_beyond.
    + simpl. intros Heq%list_elem_of_singleton. congruence.
    + done.
Qed.

Lemma distance_gate_inclusive_witness :
  (Qeq (centroid_distance grid_distance_m
          (summary_row (two_and_two north_130m 15) "A")
          (summary_row (two_and_two north_130m 15) "B"))
       (inject_Z 130) /\
   consider qsum grid_distance_m (two_and_two north_130m 15) (inject_Z 130) 2
            (summary_row (two_and_two north_130m 15) "A") (["A"], ∅)
            (summary_row (two_and_two north_130m 15) "B")
   = (["A"; "B"], {["B"]} ∪ ∅)) /\
  (Qlt (inject_Z 130)
       (centroid_distance grid_distance_m
          (summary_row (two_and_two north_131m 15) "A")
          (summary_row (two_and_two north_131m 15) "B")) /\
   consider qsum grid_distance_m (two_and_two north_131m 15) (inject_Z 130) 2
            (summary_row (two_and_two north_131m 15) "A") (["A"], ∅)
            (summary_row (two_and_two north_131m 15) "B")
   = (["A"], ∅)).
Proof.
  split.
  - set (df := two_and_two north_130m 15).
    assert (H : ps_placeID (summary_row df "A") <> ps_placeID (summary_row df "B"))
      by done.
    assert (Hd : Qeq (centroid_distance grid_distance_m (summary_row df "A")
                        (summary_row df "B")) (inject_Z 130))
      by (by vm_compute).
    split; [exact Hd|].
    destruct
        (distance_gate_inclusive qsum grid_distance_m df (place_summary_of df)
                (inject_Z 130) 2 _ _ H) as [Hat _].
    apply (Hat Hd (["A"], ∅)); [apply not_elem_of_empty|].
    right. right. apply some_overlap_existsb. by vm_compute.
  - set (df := two_and_two north_131m 15).
    assert (H : ps_placeID (summary_row df "A") <> ps_placeID (summary_row df "B"))
      by done.
    assert (Hd : Qlt (inject_Z 130)
                   (centroid_distance grid_distance_m (summary_row df "A")
                      (summary_row df "B")))
      by (by apply Qltb_true).
    split; [exact Hd|].
    destruct
        (distance_gate_inclusive qsum grid_distance_m df (place_summary_of df)
                (inject_Z 130) 2 _ _ H) as [_ Hbeyond].
    apply (Hbeyond Hd).
Defined.

(** C6 as stated fails: two places exactly 130 m apart, each with two
    short visits that overlap no visit of the other, are not merged. *)
Lemma threshold_pair_not_merged :
  Qeq (centroid_distance grid_distance_m
         (summary_row (two_and_two north_130m 120) "A")
         (summary_row (two_and_two north_130m 120) "B"))
      (inject_Z 130) /\
  place_summary_of (two_and_two north_130m 120)
  = [summary_row (two_and_two north_130m 120) "A";
     summary_row (two_and_two north_130m 120) "B"] /\
  smart_merge qsum grid_distance_m (two_and_two north_130m 120)
              (place_summary_of (two_and_two north_130m 120)) (inject_Z 130) 2
  = [["A"]; ["B"]].
Proof. split; [by vm_compute|]. split; by vm_compute. Qed.

Lemma consider_same (series_sum : list Q -> Q)
    (geodesic_m : Q * Q -> Q * Q -> Q) df thr minv
    place1 place2 st :
  ps_placeID place1 = ps_placeID place2 ->
  consider series_sum geodesic_m df thr minv place1 st place2 = st.
Proof.
  intros H. unfold consider. by rewrite (bool_decide_eq_true_2 _ H).
Qed.

Lemma consider_unmerged (series_sum : list Q -> Q)
    (geodesic_m : Q * Q -> Q * Q -> Q) df thr minv
    place1 place2 st :
  merge_within series_sum df minv place1 place2 st = st ->
  consider series_sum geodesic_m df thr minv place1 st place2 = st.
Proof.
  intros H. unfold consider.
  destruct (_ || _); [done|]. by destruct (Qle_bool _ _).
Qed.

(** The same two places are left apart by every distance function and
    every threshold: no distance makes up for the three merge
    conditions. *)
Lemma threshold_pair_never_merged (geodesic_m : Q * Q -> Q * Q -> Q)
    (distance_threshold_m : Q) :
  smart_merge qsum geodesic_m (two_and_two north_130m 120)
              (place_summary_of (two_and_two north_130m 120))
              distance_threshold_m 2
  = [["A"]; ["B"]].
Proof.
  set (df := two_and_two north_130m 120).
  set (rA := summary_row df "A"). set (rB := summary_row df "B").
  assert (Hsum : place_summary_of df = [rA; rB]) by by vm_compute.
  assert (HA : build_group qsum geodesic_m df [rA; rB] distance_threshold_m 2
                 rA ∅ = (["A"], ∅)).
  { unfold build_group. simpl fold_left.
    rewrite (consider_same _ _ _ _ _ rA rA) by done.
    apply consider_unmerged. by vm_compute. }
  assert (HB : build_group qsum geodesic_m df [rA; rB] distance_threshold_m 2
                 rB ∅ = (["B"], ∅)).
  { unfold build_group. simpl fold_left.
    rewrite (consider_same _ _ _ _ _ rB rB) by done.
    apply consider_unmerged. by vm_compute. }
  rewrite Hsum. unfold smart_merge. simpl fold_left.
  rewrite bool_decide_eq_false_2 by apply not_elem_of_empty.
  rewrite HA. unfold open_group.
  rewrite bool_decide_eq_false_2 by apply not_elem_of_empty.
  by rewrite HB.
Qed.

(** ** The merger: the groups *)

(** No place is left out: every row of the summary is in some group. *)
Lemma smart_merge_covers (series_sum : list Q -> Q)
    (geodesic_m : Q * Q -> Q * Q -> Q)
    (df_visits : list Visit) (place_summary : list PlaceRow)
    (distance_threshold_m : Q) (min_visits : Z) (r : PlaceRow) :
  r ∈ place_summary ->
  exists group,
    group ∈ smart_merge series_sum geodesic_m df_visits place_summary
              distance_threshold_m min_visits /\
    ps_placeID r ∈ group.
Proof.
  unfold smart_merge.
  set (step := open_group series_sum geodesic_m df_visits place_summary
                 distance_threshold_m min_visits).
  set (marked := fun st : list (list string) * gset string =>
         forall x, x ∈ snd st -> exists group, group ∈ fst st /\ x ∈ group).
  assert (Hstep : forall st p, marked st ->
            marked (step st p) /\
            (exists group, group ∈ fst (step st p) /\ ps_placeID p ∈ group) /\
            (forall group, group ∈ fst st -> group ∈ fst (step st p))).
  { intros [clusters used] p Hst. unfold step, open_group.
    destruct (bool_decide (ps_placeID p ∈ used)) eqn:Hp.
    { apply bool_decide_eq_true in Hp. split; [done|]. split; [by apply Hst|done]. }
    unfold build_group.
    pose proof
        (fold_consider_used series_sum geodesic_m df_visits distance_threshold_m
                  min_visits p used place_summary ([ps_placeID p], used)) as Hu.
    pose proof
        (fold_consider_mono series_sum geodesic_m df_visits distance_threshold_m
                  min_visits p place_summary ([ps_placeID p], used)
                  (ps_placeID p)) as [Hseed _].
    destruct (fold_left _ place_summary _) as [group used'].
    simpl in *. split; [|split].
    - intros x Hx. destruct (Hu (fun y Hy => or_introl Hy) x Hx) as [Hx'|Hx'].
      + destruct (Hst x Hx') as (g' & Hg' & Hxg').
        exists g'. split; [|done]. apply elem_of_app. by left.
      + exists group. split; [|done]. apply elem_of_app. right.
        apply list_elem_of_here.
    - exists group. split.
      + apply elem_of_app. right. apply list_elem_of_here.
      + apply Hseed, list_elem_of_here.
    - intros g' Hg'. apply elem_of_app. by left. }
  assert (Hfold : forall rows st, marked st ->
            marked (fold_left step rows st) /\
            (forall group, group ∈ fst st ->
                           group ∈ fst (fold_left step rows st)) /\
            (forall p, p ∈ rows -> exists group,
                group ∈ fst (fold_left step rows st) /\ ps_placeID p ∈ group)).
  { induction rows as [|p rows IH]; intros st Hst; simpl.
    - split; [done|]. split; [done|]. intros p Hp. by apply elem_of_nil in Hp.
    - destruct (Hstep st p Hst) as (Hm & (g0 & Hg0 & Hp0) & Hkeep).
      destruct (IH (step st p) Hm) as (Hm' & Hkeep' & Hrows).
      split; [done|]. split; [auto|].
      intros p' [->|Hp']%elem_of_cons; [|by apply Hrows].
      exists g0. split; [by apply Hkeep'|done]. }
  intros Hr. apply (Hfold place_summary ([], ∅)); [|done].
  intros x Hx. simpl in Hx. by apply not_elem_of_empty in Hx.
Qed.

(** C1 fails on this input, whatever the distance function, as soon as it
    puts the centroid of "A" within 130 m of the centroid of "B" (their
    visits are at the same point), and however the column sum rounds, as
    long as the total of the single half-hour visit of "A" is not above
    700: the place "A" seeds the first group and, having a single visit,
    is absorbed again into the group seeded by "B"; it is in two groups,
    and the place-to-group map keeps the later one. *)
Theorem smart_merge_repeats_seed (series_sum : list Q -> Q)
    (geodesic_m : Q * Q -> Q * Q -> Q) :
  Qle (series_sum (map duration_min (visits_of one_then_two "A")))
      (inject_Z 700) ->
  Qle (centroid_distance geodesic_m (summary_row one_then_two "B")
                         (summary_row one_then_two "A"))
      (inject_Z 130) ->
  place_summary_of one_then_two
  = [summary_row one_then_two "A"; summary_row one_then_two "B"] /\
  NoDup (map ps_placeID (place_summary_of one_then_two)) /\
  smart_merge series_sum geodesic_m one_then_two (place_summary_of one_then_two)
              (inject_Z 130) 2
  = [["A"]; ["B"; "A"]] /\
  place_id_merge_map
    (smart_merge series_sum geodesic_m one_then_two
       (place_summary_of one_then_two)
                 (inject_Z 130) 2) !! "A"
  = Some "merged_1".
Proof.
  intros Hlight Hd.
  set (rA := summary_row one_then_two "A") in *.
  set (rB := summary_row one_then_two "B") in *.
  assert (Hsum : place_summary_of one_then_two = [rA; rB]) by by vm_compute.
  assert
      (HA : build_group series_sum geodesic_m one_then_two [rA; rB]
         (inject_Z 130) 2
                 rA ∅ = (["A"], ∅)).
  { unfold build_group. simpl fold_left.
    rewrite (consider_same _ _ _ _ _ rA rA) by done.
    destruct (Qle_bool (centroid_distance geodesic_m rA rB) (inject_Z 130))
      eqn:E.
    - apply Qle_bool_iff in E.
      rewrite consider_within; [|done|apply not_elem_of_empty|done].
      rewrite merge_within_scan; [by vm_compute|by vm_compute|].
      intros [H1 _]. by apply Qlt_not_le in H1.
    - apply Qle_bool_false in E. by apply consider_beyond. }
  assert
      (HB : build_group series_sum geodesic_m one_then_two [rA; rB]
         (inject_Z 130) 2
                 rB ∅ = (["B"; "A"], {["A"]} ∪ ∅)).
  { unfold build_group. simpl fold_left.
    rewrite (consider_same _ _ _ _ _ rB rB) by done.
    rewrite consider_within; [|done|apply not_elem_of_empty|done].
    by rewrite merge_within_sparse by by vm_compute. }
  assert (Hgroups : smart_merge series_sum geodesic_m one_then_two
                      (place_summary_of one_then_two) (inject_Z 130) 2
                    = [["A"]; ["B"; "A"]]).
  { rewrite Hsum. unfold smart_merge. simpl fold_left.
    rewrite bool_decide_eq_false_2 by apply not_elem_of_empty.
    rewrite HA. unfold open_group.
    rewrite bool_decide_eq_false_2 by apply not_elem_of_empty.
    by rewrite HB. }
  split; [done|]. split.
  - rewrite Hsum. apply (bool_decide_unpack _). by vm_compute.
  - split; [done|]. rewrite Hgroups. by vm_compute.
Qed.

Lemma smart_merge_repeats_seed_witness :
  Qle (qsum (map duration_min (visits_of one_then_two "A"))) (inject_Z 700) /\
  Qle (centroid_distance grid_distance_m (summary_row one_then_two "B")
                         (summary_row one_then_two "A"))
      (inject_Z 130) /\
  smart_merge qsum grid_distance_m one_then_two (place_summary_of one_then_two)
              (inject_Z 130) 2
  = [["A"]; ["B"; "A"]].
Proof.
  assert (Hlight : Qle (qsum (map duration_min (visits_of one_then_two "A")))
                       (inject_Z 700))
    by (by apply Qle_bool_iff).
  assert (Hd : Qle (centroid_distance grid_distance_m
                      (summary_row one_then_two "B")
                      (summary_row one_then_two "A")) (inject_Z 130))
    by (by apply Qle_bool_iff).
  split; [exact Hlight|]. split; [exact Hd|].
  exact (proj1 (proj2 (proj2
           (smart_merge_repeats_seed qsum grid_distance_m Hlight Hd)))).
Defined.

(** ** The final filter *)

(** C9: the final summary holds exactly the collapsed rows with more than
    two visits: a row with exactly two visits is left out and a row with
    three or more is kept. *)
Theorem merged_summary_keeps_more_than_two
    (series_sum : list Q -> Q)
    (geodesic_m : Q * Q -> Q * Q -> Q) (df : list Visit)
    (r : string * CollapsedRow) :
  (r ∈ merged_summary series_sum geodesic_m df <->
   r ∈ merged_summary_all
         (place_id_merge_map
            (smart_merge series_sum geodesic_m df (place_summary_of df)
               (inject_Z 130) 2))
         df /\
   (2 < c_num_visits (snd r))%nat) /\
  (c_num_visits (snd r) = 2%nat -> r ∉ merged_summary series_sum
     geodesic_m df) /\
  (r ∈ merged_summary_all
         (place_id_merge_map
            (smart_merge series_sum geodesic_m df (place_summary_of df)
               (inject_Z 130) 2))
         df ->
   (3 <= c_num_visits (snd r))%nat ->
   r ∈ merged_summary series_sum geodesic_m df).
Proof.
  unfold merged_summary, more_than_two_visits.
  split; [|split].
  - rewrite list_elem_of_filter. tauto.
  - intros H2. rewrite list_elem_of_filter. lia.
  - intros Hin H3. apply list_elem_of_filter. split; [lia|done].
Qed.

Lemma merged_summary_keeps_more_than_two_witness :
  merged_summary_all
    (place_id_merge_map
       (smart_merge qsum grid_distance_m three_and_two
          (place_summary_of three_and_two) (inject_Z 130) 2))
    three_and_two
  = [("merged_0", collapse_visits (visits_of three_and_two "A"));
     ("merged_1", collapse_visits (visits_of three_and_two "C"))] /\
  c_num_visits (collapse_visits (visits_of three_and_two "A")) = 3%nat /\
  c_num_visits (collapse_visits (visits_of three_and_two "C")) = 2%nat /\
  (("merged_1", collapse_visits (visits_of three_and_two "C"))
     ∉ merged_summary qsum grid_distance_m three_and_two) /\
  ("merged_0", collapse_visits (visits_of three_and_two "A"))
    ∈ merged_summary qsum grid_distance_m three_and_two.
Proof.
  assert (Hall : merged_summary_all
    (place_id_merge_map
       (smart_merge qsum grid_distance_m three_and_two
          (place_summary_of three_and_two) (inject_Z 130) 2))
    three_and_two
  = [("merged_0", collapse_visits (visits_of three_and_two "A"));
     ("merged_1", collapse_visits (visits_of three_and_two "C"))])
    by (by vm_compute).
  split; [exact Hall|]. split; [done|]. split; [done|]. split.
  - apply (proj1 (proj2 (merged_summary_keeps_more_than_two qsum grid_distance_m
                           three_and_two _))).
    done.
  - apply (proj2 (proj2 (merged_summary_keeps_more_than_two qsum grid_distance_m
                           three_and_two _))).
    + rewrite Hall. apply list_elem_of_here.
    + simpl. lia.
Defined.

(** * Further properties *)

(** ** The collapser on whole groups *)

Lemma collapse_windows_perm group1 group2 :
  group1 ≡ₚ group2 -> Forall well_formed group1 ->
  collapse_windows group1 = collapse_windows group2.
Proof.
  intros Hperm Hwf. symmetry. apply collapse_windows_any_order.
  - unfold sort_values_start. by rewrite sort_by_perm.
  - apply sort_values_start_sorted.
  - done.
Qed.

(** X1: for well-formed visits the result of the collapser does not
    depend on the order of the rows of the group: two frames with the same
    rows give the same windows, the same number of visits and the same
    total duration. *)
Theorem collapse_visits_row_order (group1 group2 : list Visit) :
  group1 ≡ₚ group2 -> Forall well_formed group1 ->
  collapse_windows group1 = collapse_windows group2 /\
  c_num_visits (collapse_visits group1)
  = c_num_visits (collapse_visits group2) /\
  c_total_duration_min (collapse_visits group1)
  = c_total_duration_min (collapse_visits group2).
Proof.
  intros Hperm Hwf. unfold collapse_visits. simpl.
  by rewrite (collapse_windows_perm group1 group2).
Qed.

Lemma collapse_visits_row_order_witness :
  reverse two_overlapping ≡ₚ two_overlapping /\
  Forall well_formed (reverse two_overlapping) /\
  collapse_windows (reverse two_overlapping)
  = collapse_windows two_overlapping.
Proof.
  assert (Hp : reverse two_overlapping ≡ₚ two_overlapping)
    by apply reverse_Permutation.
  assert (Hwf : Forall well_formed (reverse two_overlapping)).
  { rewrite Hp. apply two_overlapping_well_formed. }
  split; [exact Hp|]. split; [exact Hwf|].
  exact (proj1 (collapse_visits_row_order _ _ Hp Hwf)).
Defined.

Lemma sweep_from_endpoints rows : forall cs ce w,
  w ∈ sweep_from cs ce rows ->
  (fst w = cs \/ exists v, v ∈ rows /\ fst w = start v) /\
  (snd w = ce \/ exists v, v ∈ rows /\ snd w = end_ v).
Proof.
  induction rows as [|v rows IH]; intros cs ce w Hw; simpl in Hw.
  - apply list_elem_of_singleton in Hw as ->. split; by left.
  - assert (Hlift : forall P : Visit -> Prop,
              (exists v', v' ∈ rows /\ P v') -> exists v', v' ∈ v :: rows /\ P v').
    { intros P (v' & Hv' & HP). exists v'. split; [by apply list_elem_of_further|done]. }
    destruct (start v <=? ce).
    + destruct (IH _ _ _ Hw) as [[Hs|Hs] [He|He]].
      * split; [by left|].
        destruct (Z.max_spec ce (end_ v)) as [[_ Hm]|[_ Hm]]; rewrite Hm in He.
        -- right. exists v. split; [apply list_elem_of_here|done].
        -- by left.
      * split; [by left|right; by apply Hlift].
      * split; [right; by apply Hlift|].
        destruct (Z.max_spec ce (end_ v)) as [[_ Hm]|[_ Hm]]; rewrite Hm in He.
        -- right. exists v. split; [apply list_elem_of_here|done].
        -- by left.
      * split; right; by apply Hlift.
    + apply elem_of_cons in Hw as [->|Hw]; [split; by left|].
      destruct (IH _ _ _ Hw) as [[Hs|Hs] [He|He]].
      * split; right; exists v; (split; [apply list_elem_of_here|done]).
      * split; [right; exists v; split; [apply list_elem_of_here|done]|].
        right; by apply Hlift.
      * split; [right; by apply Hlift|].
        right; exists v; split; [apply list_elem_of_here|done].
      * split; right; by apply Hlift.
Qed.

(** X2: every emitted window starts at the start of some visit of the
    group and ends at the end of some visit of the group; a group gives no
    window exactly when it is empty. *)
Theorem collapse_windows_endpoints (group : list Visit) :
  (forall w, w ∈ collapse_windows group ->
     (exists v, v ∈ group /\ fst w = start v) /\
     (exists v, v ∈ group /\ snd w = end_ v)) /\
  (c_num_visits (collapse_visits group) = 0%nat <-> group = []).
Proof.
  unfold collapse_visits, collapse_windows. simpl.
  assert (Hsub : forall v, v ∈ sort_values_start group -> v ∈ group).
  { intros v. apply sort_by_elem. }
  assert (Hlen : length (sort_values_start group) = length group).
  { apply sort_by_length. }
  destruct (sort_values_start group) as [|v0 rows] eqn:Hs.
  - destruct group; [|done]. split; [|done].
    intros w Hw. by apply elem_of_nil in Hw.
  - rewrite sweep_cons. split.
    + intros w Hw.
      destruct (sweep_from_endpoints _ _ _ _ Hw) as [Hst Hen].
      split.
      * destruct Hst as [Hst|(v & Hv & Hst)].
        -- exists v0. split; [apply Hsub, list_elem_of_here|done].
        -- exists v. split; [by apply Hsub, list_elem_of_further|done].
      * destruct Hen as [Hen|(v & Hv & Hen)].
        -- exists v0. split; [apply Hsub, list_elem_of_here|done].
        -- exists v. split; [by apply Hsub, list_elem_of_further|done].
    + destruct (sweep_from_head rows (start v0) (end_ v0)) as (ce' & rest & -> & _).
      split; [done|]. intros ->. done.
Qed.

Lemma sweep_from_apart rows : forall v0,
  Sorted (fun a b => end_ a < start b) (v0 :: rows) ->
  sweep_from (start v0) (end_ v0) rows
  = map (fun v => (start v, end_ v)) (v0 :: rows).
Proof.
  induction rows as [|v1 rows IH]; intros v0 Hs; simpl; [done|].
  apply Sorted_inv in Hs as [Hs Hhd]. apply HdRel_inv in Hhd.
  destruct (start v1 <=? end_ v0) eqn:Hle; [apply Z.leb_le in Hle; lia|].
  f_equal. by apply IH.
Qed.

(** X3: visits that are apart stay apart: when the rows of a group of
    well-formed visits can be listed so that each visit starts strictly
    after the previous one ends, the windows are exactly these visits, in
    that order, and the number of visits is the number of rows. *)
Theorem collapse_keeps_separate_visits (group rows : list Visit) :
  group ≡ₚ rows ->
  Forall well_formed rows ->
  Sorted (fun a b => end_ a < start b) rows ->
  collapse_windows group = map (fun v => (start v, end_ v)) rows /\
  c_num_visits (collapse_visits group) = length group.
Proof.
  intros Hperm Hwf Hs.
  assert (Hw : collapse_windows group = map (fun v => (start v, end_ v)) rows).
  { rewrite (collapse_windows_perm group rows) by (done || by rewrite Hperm).
    unfold collapse_windows. rewrite sort_values_start_id.
    - destruct rows as [|v0 rows]; [done|]. rewrite sweep_cons.
      by apply sweep_from_apart.
    - clear Hperm. induction Hs as [|v rows Hs IH Hhd]; [constructor|].
      apply Forall_cons in Hwf as [Hv Hwf].
      constructor; [by apply IH|].
      destruct Hhd as [|b l Hb]; constructor. unfold well_formed in Hv. lia. }
  split; [done|]. unfold collapse_visits. simpl.
  rewrite Hw, length_map. by rewrite Hperm.
Qed.

Lemma collapse_keeps_separate_visits_witness :
  two_apart ≡ₚ two_apart /\
  Forall well_formed two_apart /\
  Sorted (fun a b => end_ a < start b) two_apart /\
  collapse_windows two_apart
  = [(clock 9 0, clock 9 10); (clock 10 0, clock 10 10)] /\
  c_num_visits (collapse_visits two_apart) = 2%nat.
Proof.
  assert (Hs : Sorted (fun a b => end_ a < start b) two_apart).
  { repeat constructor; unfold clock; simpl; lia. }
  split; [done|]. split; [exact two_apart_well_formed|]. split; [exact Hs|].
  exact (collapse_keeps_separate_visits two_apart two_apart
           (reflexivity _) two_apart_well_formed Hs).
Defined.

(** ** Window lengths *)

Lemma total_ns_perm ws1 ws2 : ws1 ≡ₚ ws2 -> total_ns ws1 = total_ns ws2.
Proof.
  induction 1 as [|w ws1 ws2 _ IH|w1 w2 ws|ws1 ws2 ws3 _ IH1 _ IH2];
    simpl; lia.
Qed.

Lemma total_ns_nonneg ws :
  Forall (fun w => fst w <= snd w) ws -> 0 <= total_ns ws.
Proof. induction 1; simpl; lia. Qed.

Lemma total_ns_elem ws w :
  Forall (fun w => fst w <= snd w) ws -> w ∈ ws ->
  snd w - fst w <= total_ns ws.
Proof.
  induction 1 as [|w' ws Hw' Hws IH]; intros Hw.
  - by apply elem_of_nil in Hw.
  - pose proof (total_ns_nonneg ws Hws).
    apply elem_of_cons in Hw as [->|Hw]; simpl; [lia|].
    specialize (IH Hw). lia.
Qed.

Lemma sweep_from_total_ns rows : forall cs ce,
  Forall well_formed rows ->
  total_ns (sweep_from cs ce rows)
  <= (ce - cs) + total_ns (map interval rows).
Proof.
  induction rows as [|v rows IH]; intros cs ce Hwf; simpl; [lia|].
  apply Forall_cons in Hwf as [Hv Hwf]. unfold well_formed in Hv.
  destruct (start v <=? ce) eqn:Hle.
  - apply Z.leb_le in Hle. specialize (IH cs (Z.max ce (end_ v)) Hwf). lia.
  - specialize (IH (start v) (end_ v) Hwf). simpl. lia.
Qed.

Lemma collapse_windows_total_ns group :
  Forall well_formed group ->
  total_ns (collapse_windows group) <= total_ns (map interval group).
Proof.
  intros Hwf. unfold collapse_windows.
  assert (Hp : sort_values_start group ≡ₚ group).
  { unfold sort_values_start. apply sort_by_perm. }
  rewrite <- (total_ns_perm _ _ (Permutation_map interval Hp)).
  rewrite <- Hp in Hwf.
  destruct (sort_values_start group) as [|v rows]; [done|].
  rewrite sweep_cons. apply Forall_cons in Hwf as [Hv Hwf].
  pose proof (sweep_from_total_ns rows (start v) (end_ v) Hwf). simpl. lia.
Qed.

(** X4: no double counting.  For well-formed visits the summed length of
    the emitted windows is not negative, is at most the summed length of
    the visits of the group, and is at least the length of each single
    visit.  The lengths are the differences [end - start], which pandas
    computes without rounding, in nanoseconds. *)
Theorem collapsed_length_bounds (group : list Visit) :
  Forall well_formed group ->
  0 <= total_ns (collapse_windows group) <= total_ns (map interval group) /\
  (forall v, v ∈ group ->
     end_ v - start v <= total_ns (collapse_windows group)).
Proof.
  intros Hwf.
  pose proof (collapse_windows_proper group Hwf) as Hp.
  split; [split|].
  - by apply total_ns_nonneg.
  - by apply collapse_windows_total_ns.
  - intros v Hv.
    destruct (collapse_windows_inside group v Hv) as (w & Hw & Hin1 & Hin2).
    pose proof (total_ns_elem _ w Hp Hw). lia.
Qed.

Lemma collapsed_length_bounds_witness :
  Forall well_formed two_overlapping /\
  total_ns (map interval two_overlapping) = 120 * 60000000000 /\
  total_ns (collapse_windows two_overlapping) = 90 * 60000000000 /\
  total_ns (collapse_windows two_overlapping)
  <= total_ns (map interval two_overlapping).
Proof.
  split; [exact two_overlapping_well_formed|].
  split; [reflexivity|]. split; [reflexivity|].
  exact (proj2 (proj1 (collapsed_length_bounds two_overlapping
                         two_overlapping_well_formed))).
Defined.

(** ** The merge test *)

Section Decision.
Variable series_sum : list Q -> Q.
Variable geodesic_m : Q * Q -> Q * Q -> Q.
Variable df_visits : list Visit.
Variable distance_threshold_m : Q.
Variable min_visits : Z.

Local Abbreviation step :=
  (consider series_sum geodesic_m df_visits distance_threshold_m min_visits).
Local Abbreviation merges' :=
  (merges series_sum geodesic_m df_visits distance_threshold_m min_visits).
Local Abbreviation leaves' :=
  (leaves series_sum geodesic_m df_visits distance_threshold_m min_visits).

Lemma merge_within_cases place1 place2 :
  (forall st, merge_within series_sum df_visits min_visits place1
     place2 st = st) \/
  (forall st, merge_within series_sum df_visits min_visits place1 place2 st
              = absorb (ps_placeID place2) st).
Proof.
  unfold merge_within.
  destruct (_ <? _); [by right|].
  destruct (_ && _); [by right|].
  destruct (existsb (fun v1 => existsb (overlaps v1)
              (visits_of df_visits (ps_placeID place2)))
              (visits_of df_visits (ps_placeID place1))) eqn:He.
  - right. intros st. by rewrite scan_visits1_spec, He.
  - left. intros st. by rewrite scan_visits1_spec, He.
Qed.

(** The test does not depend on the state of the loops: a pair either
    always merges or never does. *)
Lemma consider_decision place1 place2 :
  leaves' place1 place2 \/
  (ps_placeID place1 <> ps_placeID place2 /\ merges' place1 place2).
Proof.
  destruct (decide (ps_placeID place1 = ps_placeID place2)) as [Heq|Hne].
  { left. intros st. by apply consider_same. }
  destruct (Qle_bool (centroid_distance geodesic_m place1 place2)
              distance_threshold_m) eqn:Hd.
  - apply Qle_bool_iff in Hd.
    destruct (merge_within_cases place1 place2) as [H|H].
    + left. intros st. by apply consider_unmerged.
    + right. split; [done|]. intros st Hst. by rewrite consider_within.
  - apply Qle_bool_false in Hd. left. intros st. by apply consider_beyond.
Qed.

Lemma merges_not_leaves place1 place2 :
  merges' place1 place2 -> leaves' place1 place2 -> False.
Proof.
  intros Hm Hl. specialize (Hm ([], ∅) (not_elem_of_empty _)).
  rewrite (Hl ([], ∅)) in Hm. discriminate.
Qed.

Lemma absorbed_merges place1 place2 st :
  step place1 st place2 = absorb (ps_placeID place2) st ->
  merges' place1 place2.
Proof.
  intros H. destruct (consider_decision place1 place2) as [Hl|[_ Hm]]; [|done].
  rewrite (Hl st) in H. unfold absorb in H.
  apply (f_equal (fun s => length (fst s))) in H. simpl in H.
  rewrite length_app in H. simpl in H. lia.
Qed.
End Decision.

(** ** The shape of one group *)

Section GroupShape.
Variable series_sum : list Q -> Q.
Variable geodesic_m : Q * Q -> Q * Q -> Q.
Variable df_visits : list Visit.
Variable distance_threshold_m : Q.
Variable min_visits : Z.
Variable place1 : PlaceRow.
Variable used0 : gset string.

Local Abbreviation step :=
  (consider series_sum geodesic_m df_visits distance_threshold_m
     min_visits place1).
Local Abbreviation merges' :=
  (merges series_sum geodesic_m df_visits distance_threshold_m
     min_visits place1).

Lemma fold_consider_shape rows : forall (seen : list PlaceRow) st added,
  fst st = ps_placeID place1 :: added ->
  (forall x, x ∈ snd st <-> x ∈ added \/ x ∈ used0) ->
  NoDup added -> ps_placeID place1 ∉ added ->
  (forall x, x ∈ added -> x ∉ used0) ->
  (forall x, x ∈ added ->
     exists p, p ∈ seen /\ ps_placeID p = x /\ merges' p) ->
  exists added',
    fst (fold_left step rows st) = ps_placeID place1 :: added' /\
    (forall x, x ∈ snd (fold_left step rows st) <-> x ∈ added' \/ x ∈ used0) /\
    NoDup added' /\ (ps_placeID place1 ∉ added') /\
    (forall x, x ∈ added' -> x ∉ used0) /\
    (forall x, x ∈ added' ->
       exists p, p ∈ seen ++ rows /\ ps_placeID p = x /\ merges' p).
Proof.
  induction rows as [|r rows IH]; intros seen st added Hfst Hsnd Hnd H1 Hu Hm.
  - exists added. simpl. rewrite app_nil_r. done.
  - simpl.
    replace (seen ++ r :: rows) with ((seen ++ [r]) ++ rows)
      by by rewrite <- app_assoc.
    destruct
        (consider_cases series_sum geodesic_m df_visits distance_threshold_m
                min_visits place1 r st) as [H|(H & Hne & Hst)]; rewrite H.
    + apply (IH (seen ++ [r]) st added); try done.
      intros x Hx. destruct (Hm x Hx) as (p & Hp & Hpx & Hpm).
      exists p. split; [|done]. apply elem_of_app. by left.
    + assert (Hfresh : ps_placeID r ∉ added).
      { intros Hin. apply Hst, Hsnd. by left. }
      apply (IH (seen ++ [r]) _ (added ++ [ps_placeID r])).
      * unfold absorb. simpl. by rewrite Hfst.
      * intros x. unfold absorb. simpl.
        rewrite elem_of_union, elem_of_singleton, Hsnd, elem_of_app,
          list_elem_of_singleton. tauto.
      * apply NoDup_app. split; [done|]. split; [|apply NoDup_singleton].
        intros x Hx ->%list_elem_of_singleton. done.
      * intros [Hin|Hin]%elem_of_app; [done|].
        apply list_elem_of_singleton in Hin. by apply Hne.
      * intros x [Hx|Hx]%elem_of_app; [by apply Hu|].
        apply list_elem_of_singleton in Hx as ->.
        intros Hin. apply Hst, Hsnd. by right.
      * intros x [Hx|Hx]%elem_of_app;
          [|apply list_elem_of_singleton in Hx as ->].
        -- destruct (Hm x Hx) as (p & Hp & Hpx & Hpm).
           exists p. split; [|done]. apply elem_of_app. by left.
        -- exists r. split; [apply elem_of_app; right; apply list_elem_of_here|].
           split; [done|]. by apply (absorbed_merges _ _ _ _ _ _ _ st).
Qed.

(** The group seeded with [place1] is the seed followed by the
    identifiers absorbed while it was built; none of them was marked, none
    is repeated, each one passed the merge test against the seed, and
    [used] grows by exactly these identifiers. *)
Lemma build_group_shape (place_summary : list PlaceRow) :
  exists added,
    fst
        (build_group series_sum geodesic_m df_visits place_summary
           distance_threshold_m
           min_visits place1 used0)
    = ps_placeID place1 :: added /\
    (forall x,
       x ∈ snd (build_group series_sum geodesic_m df_visits place_summary
                  distance_threshold_m min_visits place1 used0)
       <-> x ∈ added \/ x ∈ used0) /\
    NoDup added /\ (ps_placeID place1 ∉ added) /\
    (forall x, x ∈ added -> x ∉ used0) /\
    (forall x, x ∈ added ->
       exists p, p ∈ place_summary /\ ps_placeID p = x /\ merges' p).
Proof.
  unfold build_group.
  apply (fold_consider_shape place_summary [] _ []); simpl.
  - done.
  - intros x. split; [by right|]. intros [H|H]; [by apply elem_of_nil in H|done].
  - apply NoDup_nil_2.
  - apply not_elem_of_nil.
  - intros x H. by apply elem_of_nil in H.
  - intros x H. by apply elem_of_nil in H.
Qed.

(** Every row that passes the merge test against the seed is marked when
    the group is finished. *)
Lemma build_group_closed (place_summary : list PlaceRow) p :
  p ∈ place_summary -> merges' p ->
  ps_placeID p ∈
    snd
        (build_group series_sum geodesic_m df_visits place_summary
           distance_threshold_m
           min_visits place1 used0).
Proof.
  intros Hin Hm. unfold build_group.
  apply list_elem_of_split in Hin as (l1 & l2 & ->).
  rewrite fold_left_app. simpl.
  set (st1 := fold_left step l1 ([ps_placeID place1], used0)).
  apply fold_consider_mono.
  destruct (decide (ps_placeID p ∈ snd st1)) as [Hu|Hu].
  - by apply consider_mono.
  - rewrite (Hm _ Hu). unfold absorb. simpl.
    apply elem_of_union. left. by apply elem_of_singleton.
Qed.
End GroupShape.

(** ** The shape of the groups *)

Lemma seeds_app gs1 gs2 : seeds (gs1 ++ gs2) = seeds gs1 ++ seeds gs2.
Proof. unfold seeds. by rewrite map_app, concat_app. Qed.

Lemma absorbed_app gs1 gs2 :
  absorbed (gs1 ++ gs2) = absorbed gs1 ++ absorbed gs2.
Proof. unfold absorbed. by rewrite map_app, concat_app. Qed.

Lemma concat_seeds_absorbed gs : concat gs ≡ₚ seeds gs ++ absorbed gs.
Proof.
  induction gs as [|g gs IH]; [done|].
  change (seeds (g :: gs)) with (take 1 g ++ seeds gs).
  change (absorbed (g :: gs)) with (drop 1 g ++ absorbed gs).
  simpl. rewrite IH. rewrite <- (take_drop 1 g) at 1.
  rewrite <- !app_assoc. f_equiv. rewrite !app_assoc. f_equiv.
  apply Permutation_app_comm.
Qed.

Section Groups.
Variable series_sum : list Q -> Q.
Variable geodesic_m : Q * Q -> Q * Q -> Q.
Variable df_visits : list Visit.
Variable place_summary : list PlaceRow.
Variable distance_threshold_m : Q.
Variable min_visits : Z.

Local Abbreviation merges' :=
  (merges series_sum geodesic_m df_visits distance_threshold_m min_visits).
Local Abbreviation grouped' :=
  (grouped series_sum geodesic_m df_visits place_summary distance_threshold_m
     min_visits).
Local Abbreviation open' :=
  (open_group series_sum geodesic_m df_visits place_summary distance_threshold_m
     min_visits).

Lemma grouped_step seen st r :
  grouped' seen st -> grouped' (seen ++ [r]) (open' st r).
Proof.
  destruct st as [clusters used].
  intros (Hall & Hused & Hnd & Hsub & Hseen). unfold open_group.
  simpl in *.
  destruct (bool_decide (ps_placeID r ∈ used)) eqn:Hr.
  - apply bool_decide_eq_true in Hr. split; [|split; [|split; [|split]]]; simpl.
    + eapply Forall_impl; [exact Hall|]. simpl.
      intros group (r0 & added & H0 & H1 & H2 & H3 & H4).
      exists r0, added. split; [apply elem_of_app; by left|done].
    + done.
    + done.
    + rewrite map_app. by apply sublist_inserts_r.
    + intros r' [Hr'|Hr']%elem_of_app; [by apply Hseen|].
      apply list_elem_of_singleton in Hr' as ->. by left.
  - apply bool_decide_eq_false in Hr.
    destruct
        (build_group_shape series_sum geodesic_m df_visits distance_threshold_m
                min_visits r used place_summary)
      as (added & Hfst & Hsnd & HndA & Hseed & Hfresh & Hmerged).
    pose proof
        (build_group_closed series_sum geodesic_m df_visits distance_threshold_m
                  min_visits r used place_summary) as Hclosed.
    destruct (build_group _ _ _ _ _ _ r used) as [group used'].
    simpl in *. subst group.
    split; [|split; [|split; [|split]]]; simpl.
    + apply Forall_app. split.
      * eapply Forall_impl; [exact Hall|]. simpl.
        intros group (r0 & added0 & H0 & H1 & H2 & H3 & H4).
        exists r0, added0. split; [apply elem_of_app; by left|].
        split; [done|]. split; [done|]. split; [done|].
        intros p Hp Hm. apply Hsnd. right. by apply H4.
      * apply Forall_singleton. exists r, added.
        split; [apply elem_of_app; right; apply list_elem_of_here|].
        split; [done|]. split; [by apply NoDup_cons|]. split; [done|].
        exact Hclosed.
    + intros x. rewrite absorbed_app, elem_of_app, Hsnd, Hused.
      unfold absorbed at 3. simpl. rewrite app_nil_r. tauto.
    + rewrite absorbed_app. unfold absorbed at 2. simpl. rewrite app_nil_r.
      apply NoDup_app. split; [done|]. split; [|done].
      intros x Hx Hx'. apply (Hfresh x Hx'). by apply Hused.
    + rewrite seeds_app, map_app. by apply sublist_app.
    + intros r' [Hr'|Hr']%elem_of_app.
      * destruct (Hseen r' Hr') as [H|H].
        -- left. apply Hsnd. by right.
        -- right. rewrite seeds_app. apply elem_of_app. by left.
      * apply list_elem_of_singleton in Hr' as ->. right.
        rewrite seeds_app. apply elem_of_app. right. apply list_elem_of_here.
Qed.

Lemma grouped_fold rows : forall seen st,
  grouped' seen st -> grouped' (seen ++ rows) (fold_left open' rows st).
Proof.
  induction rows as [|r rows IH]; intros seen st H; simpl.
  - by rewrite app_nil_r.
  - replace (seen ++ r :: rows) with ((seen ++ [r]) ++ rows)
      by by rewrite <- app_assoc.
    by apply IH, grouped_step.
Qed.

Lemma grouped_start : grouped' [] ([], ∅).
Proof.
  unfold grouped. simpl. split; [by apply Forall_nil|]. split.
  { intros x. split; intros H; [by apply not_elem_of_empty in H|].
    by apply elem_of_nil in H. }
  split; [apply NoDup_nil_2|]. split; [constructor|].
  intros r Hr. by apply elem_of_nil in Hr.
Qed.

Lemma smart_merge_grouped :
  grouped' place_summary (fold_left open' place_summary ([], ∅)).
Proof. apply (grouped_fold place_summary [] _ grouped_start). Qed.
End Groups.

(** X5: every group is the identifier of a row of the summary, its seed,
    followed by identifiers of other rows, without repetition, and each
    of these rows passed the merge test against the seed itself (there is
    no chaining through other members); there are at most as many groups
    as rows. *)
Theorem smart_merge_group_shape (series_sum : list Q -> Q)
    (geodesic_m : Q * Q -> Q * Q -> Q)
    (df_visits : list Visit) (place_summary : list PlaceRow)
    (distance_threshold_m : Q) (min_visits : Z) :
  Forall (fun group =>
            exists r added,
              r ∈ place_summary /\ group = ps_placeID r :: added /\
              NoDup group /\
              (forall x, x ∈ added ->
                 exists p, p ∈ place_summary /\ ps_placeID p = x /\
                   merges series_sum geodesic_m df_visits distance_threshold_m
                          min_visits r p))
         (smart_merge series_sum geodesic_m df_visits place_summary
            distance_threshold_m min_visits) /\
  (length (smart_merge series_sum geodesic_m df_visits place_summary
             distance_threshold_m min_visits)
   <= length place_summary)%nat.
Proof.
  destruct (smart_merge_grouped series_sum geodesic_m df_visits place_summary
              distance_threshold_m min_visits)
    as (Hall & _ & _ & Hsub & _).
  unfold smart_merge. split.
  - eapply Forall_impl; [exact Hall|]. simpl.
    intros group (r & added & H0 & H1 & H2 & H3 & _). by exists r, added.
  - apply sublist_length in Hsub. rewrite length_map in Hsub.
    etrans; [|exact Hsub].
    clear -Hall. induction Hall as [|g gs (r & added & _ & -> & _) _ IH].
    + done.
    + change (seeds ((ps_placeID r :: added) :: gs))
        with (ps_placeID r :: seeds gs). simpl. lia.
Qed.

(** X6: no identifier is absorbed twice, the seeds are identifiers of
    rows in the order of the summary, and the groups hold the seeds and
    the absorbed identifiers and nothing else; so when the identifiers of
    the summary are distinct, an identifier is in at most two groups, once
    as a seed and once absorbed. *)
Theorem smart_merge_absorbs_once (series_sum : list Q -> Q)
    (geodesic_m : Q * Q -> Q * Q -> Q)
    (df_visits : list Visit) (place_summary : list PlaceRow)
    (distance_threshold_m : Q) (min_visits : Z) :
  NoDup (absorbed (smart_merge series_sum geodesic_m df_visits place_summary
                     distance_threshold_m min_visits)) /\
  sublist (seeds (smart_merge series_sum geodesic_m df_visits place_summary
                    distance_threshold_m min_visits))
          (map ps_placeID place_summary) /\
  (NoDup (map ps_placeID place_summary) ->
   NoDup (seeds (smart_merge series_sum geodesic_m df_visits place_summary
                   distance_threshold_m min_visits))) /\
  concat (smart_merge series_sum geodesic_m df_visits place_summary
            distance_threshold_m min_visits)
  ≡ₚ seeds (smart_merge series_sum geodesic_m df_visits place_summary
              distance_threshold_m min_visits)
     ++ absorbed (smart_merge series_sum geodesic_m df_visits place_summary
                    distance_threshold_m min_visits).
Proof.
  destruct (smart_merge_grouped series_sum geodesic_m df_visits place_summary
              distance_threshold_m min_visits)
    as (_ & _ & Hnd & Hsub & _).
  unfold smart_merge. split; [done|]. split; [done|].
  split; [intros Hids; by eapply sublist_NoDup|].
  apply concat_seeds_absorbed.
Qed.

(** X7: the groups are closed under the merge test: every row of the
    summary that passes the test against the seed of some group has been
    absorbed, into that group or into an earlier one. *)
Theorem smart_merge_closed (series_sum : list Q -> Q)
    (geodesic_m : Q * Q -> Q * Q -> Q)
    (df_visits : list Visit) (place_summary : list PlaceRow)
    (distance_threshold_m : Q) (min_visits : Z) :
  Forall (fun group =>
            exists r added,
              r ∈ place_summary /\ group = ps_placeID r :: added /\
              (forall p, p ∈ place_summary ->
                 merges series_sum geodesic_m df_visits distance_threshold_m
                        min_visits r p ->
                 ps_placeID p ∈
                   absorbed
                      (smart_merge series_sum geodesic_m df_visits place_summary
                               distance_threshold_m min_visits)))
         (smart_merge series_sum geodesic_m df_visits place_summary
            distance_threshold_m min_visits).
Proof.
  destruct (smart_merge_grouped series_sum geodesic_m df_visits place_summary
              distance_threshold_m min_visits)
    as (Hall & Hused & _).
  unfold smart_merge. eapply Forall_impl; [exact Hall|]. simpl.
  intros group (r & added & H0 & H1 & _ & _ & H4).
  exists r, added. split; [done|]. split; [done|].
  intros p Hp Hm. apply Hused. by apply H4.
Qed.

(** ** When the groups are a partition *)

Lemma overlaps_sym v1 v2 : overlaps v1 v2 = overlaps v2 v1.
Proof. unfold overlaps. by rewrite Z.max_comm, Z.min_comm. Qed.

Lemma some_overlap_sym visits1 visits2 :
  some_overlap visits1 visits2 -> some_overlap visits2 visits1.
Proof.
  intros (v1 & v2 & H1 & H2 & H). exists v2, v1.
  split; [done|]. split; [done|]. by rewrite Z.max_comm, Z.min_comm.
Qed.

Lemma merge_condition_dec series_sum df minv place1 place2 :
  merge_condition series_sum df minv place1 place2 \/
  ~ merge_condition series_sum df minv place1 place2.
Proof.
  destruct (merge_within_cases series_sum df minv place1 place2) as [H|H].
  - right. intros Hc.
    pose proof
      (proj1 (merge_within_decides series_sum df minv place1 place2 ([], ∅)) Hc)
      as Ha.
    rewrite (H ([], ∅)) in Ha. discriminate.
  - left. destruct
      (merge_within_decides series_sum df minv place1 place2 ([], ∅))
      as [_ Hn].
    unfold merge_condition.
    set (visits1 := visits_of df (ps_placeID place1)) in *.
    set (visits2 := visits_of df (ps_placeID place2)) in *.
    destruct (Z.of_nat (length visits2) <? minv) eqn:Hs.
    { left. by apply Z.ltb_lt. }
    destruct (Qltb (inject_Z 700) (series_sum (map duration_min visits1))
              && Qltb (inject_Z 700) (series_sum (map duration_min visits2)))
      eqn:Hh.
    { apply andb_true_iff in Hh as [H1%Qltb_true H2%Qltb_true].
      right. by left. }
    destruct (existsb (fun v1 => existsb (overlaps v1) visits2) visits1)
      eqn:Ho.
    { right. right. by apply some_overlap_existsb. }
    exfalso. specialize (H ([], ∅)). unfold merge_within in H.
    fold visits1 visits2 in H. rewrite Hs, Hh, scan_visits1_spec, Ho in H.
    discriminate.
Qed.

Lemma merges_spec (series_sum : list Q -> Q)
    (geodesic_m : Q * Q -> Q * Q -> Q) df thr minv
    place1 place2 :
  ps_placeID place1 <> ps_placeID place2 ->
  (merges series_sum geodesic_m df thr minv place1 place2 <->
   Qle (centroid_distance geodesic_m place1 place2) thr /\
   merge_condition series_sum df minv place1 place2).
Proof.
  intros Hne. split.
  - intros Hm. specialize (Hm ([], ∅) (not_elem_of_empty _)).
    destruct (Qlt_le_dec thr (centroid_distance geodesic_m place1 place2))
      as [Hd|Hd].
    { rewrite consider_beyond in Hm by done. discriminate. }
    split; [done|].
    destruct (merge_condition_dec series_sum df minv place1 place2) as
        [Hc|Hc]; [done|].
    rewrite consider_within in Hm; [|done|apply not_elem_of_empty|done].
    rewrite
      (proj2 (merge_within_decides series_sum df minv place1 place2 ([], ∅)) Hc)
      in Hm.
    discriminate.
  - intros [Hd Hc] st Hst. rewrite consider_within by done.
    by apply merge_within_decides.
Qed.

(** With a symmetric distance, the merge test is symmetric on a pair whose
    first place is not sparse. *)
Lemma merges_sym (series_sum : list Q -> Q)
    (geodesic_m : Q * Q -> Q * Q -> Q) df thr minv
    place1 place2 :
  (forall p q, Qeq (geodesic_m p q) (geodesic_m q p)) ->
  ps_placeID place1 <> ps_placeID place2 ->
  minv <= Z.of_nat (length (visits_of df (ps_placeID place1))) ->
  merges series_sum geodesic_m df thr minv place2 place1 ->
  merges series_sum geodesic_m df thr minv place1 place2.
Proof.
  intros Hsym Hne Hdense Hm.
  apply merges_spec in Hm as [Hd Hc]; [|done].
  apply merges_spec; [done|]. split.
  - unfold centroid_distance in *. by rewrite Hsym.
  - unfold merge_condition in *. destruct Hc as [Hs|[[H1 H2]|Ho]].
    + lia.
    + right. by left.
    + right. right. by apply some_overlap_sym.
Qed.

Lemma seeds_elem (gs : list (list string)) s :
  s ∈ seeds gs -> exists rest, (s :: rest) ∈ gs.
Proof.
  induction gs as [|g gs IH]; intros Hs; [by apply elem_of_nil in Hs|].
  change (seeds (g :: gs)) with (take 1 g ++ seeds gs) in Hs.
  apply elem_of_app in Hs as [Hs|Hs].
  - destruct g as [|x g]; [by apply elem_of_nil in Hs|]. simpl in Hs.
    rewrite take_0 in Hs. apply list_elem_of_singleton in Hs as ->.
    exists g. apply list_elem_of_here.
  - destruct (IH Hs) as [rest Hrest]. exists rest.
    by apply list_elem_of_further.
Qed.

Lemma elem_of_concat (gs : list (list string)) x :
  x ∈ concat gs <-> exists g, g ∈ gs /\ x ∈ g.
Proof.
  rewrite list_elem_of_In, in_concat. split; intros (g & H1 & H2); exists g.
  - by rewrite !list_elem_of_In.
  - by rewrite <- !list_elem_of_In.
Qed.

Lemma concat_unique_group (gs : list (list string)) : forall i j g1 g2 x,
  NoDup (concat gs) ->
  gs !! i = Some g1 -> gs !! j = Some g2 -> x ∈ g1 -> x ∈ g2 -> i = j.
Proof.
  induction gs as [|g gs IH]; intros i j g1 g2 x Hnd Hi Hj H1 H2.
  - by rewrite lookup_nil in Hi.
  - simpl in Hnd. apply NoDup_app in Hnd as (Hg & Hdisj & Hgs).
    assert (Hin : forall k g', gs !! k = Some g' -> x ∈ g' -> x ∈ concat gs).
    { intros k g' Hk Hx. apply elem_of_concat. exists g'.
      split; [by eapply list_elem_of_lookup_2|done]. }
    destruct i as [|i], j as [|j]; simpl in *.
    + done.
    + injection Hi as <-. destruct (Hdisj x H1). by eapply Hin.
    + injection Hj as <-. destruct (Hdisj x H2). by eapply Hin.
    + f_equal. by eapply IH.
Qed.

Section Dense.
Variable series_sum : list Q -> Q.
Variable geodesic_m : Q * Q -> Q * Q -> Q.
Variable df_visits : list Visit.
Variable place_summary : list PlaceRow.
Variable distance_threshold_m : Q.
Variable min_visits : Z.

Hypothesis symmetric : forall p q, Qeq (geodesic_m p q) (geodesic_m q p).
Hypothesis distinct : NoDup (map ps_placeID place_summary).
Hypothesis dense : forall r, r ∈ place_summary ->
  min_visits <= Z.of_nat (length (visits_of df_visits (ps_placeID r))).

Local Abbreviation grouped' :=
  (grouped series_sum geodesic_m df_visits place_summary distance_threshold_m
     min_visits).
Local Abbreviation open' :=
  (open_group series_sum geodesic_m df_visits place_summary distance_threshold_m
     min_visits).

Lemma seeds_unmarked_step seen st r :
  (forall r', r' ∈ seen ++ [r] -> r' ∈ place_summary) ->
  grouped' seen st ->
  (forall s, s ∈ seeds (fst st) -> s ∉ snd st) ->
  forall s, s ∈ seeds (fst (open' st r)) -> s ∉ snd (open' st r).
Proof.
  destruct st as [clusters used].
  intros Hrows (Hall & Hused & _ & _ & _) Hun. unfold open_group. simpl in *.
  destruct (bool_decide (ps_placeID r ∈ used)) eqn:Hr; [done|].
  apply bool_decide_eq_false in Hr.
  destruct
      (build_group_shape series_sum geodesic_m df_visits distance_threshold_m
              min_visits r used place_summary)
    as (added & Hfst & Hsnd & HndA & Hseed & Hfresh & Hmerged).
  destruct (build_group _ _ _ _ _ _ r used) as [group used'].
  simpl in *. subst group. intros s Hs.
  rewrite seeds_app in Hs. rewrite Hsnd.
  apply elem_of_app in Hs as [Hs|Hs].
  - intros [Hin|Hin]; [|by apply (Hun s)].
    destruct (seeds_elem _ _ Hs) as [rest Hgroup].
    rewrite Forall_forall in Hall.
    destruct (Hall _ Hgroup) as (r0 & added0 & Hr0 & Heq & _ & _ & Hclosed).
    injection Heq as -> ->.
    destruct (Hmerged _ Hin) as (p & Hp & Hpid & Hm).
    assert (Hr0' : r0 ∈ place_summary).
    { apply Hrows, elem_of_app. by left. }
    assert (p = r0) as -> by by apply (placeID_determines_row place_summary).
    assert (Hne : ps_placeID r0 <> ps_placeID r).
    { intros Heq. apply Hseed. by rewrite <- Heq. }
    apply Hr, (Hclosed r).
    + apply Hrows, elem_of_app. right. apply list_elem_of_here.
    + apply merges_sym; [done|done|by apply dense|done].
  - change (seeds [ps_placeID r :: added]) with [ps_placeID r] in Hs.
    apply list_elem_of_singleton in Hs as ->. tauto.
Qed.

Lemma seeds_unmarked_fold rows : forall seen st,
  (forall r', r' ∈ seen ++ rows -> r' ∈ place_summary) ->
  grouped' seen st ->
  (forall s, s ∈ seeds (fst st) -> s ∉ snd st) ->
  forall s, s ∈ seeds (fst (fold_left open' rows st)) ->
            s ∉ snd (fold_left open' rows st).
Proof.
  induction rows as [|r rows IH]; intros seen st Hrows Hg Hun; simpl; [done|].
  apply (IH (seen ++ [r])).
  - intros r' Hr'. apply Hrows. by rewrite <- app_assoc in Hr'.
  - by apply grouped_step.
  - apply (seeds_unmarked_step seen); [|done|done].
    intros r' Hr'. apply Hrows. rewrite elem_of_app in *.
    destruct Hr' as [?|Hr']; [by left|right].
    apply list_elem_of_singleton in Hr' as ->. apply list_elem_of_here.
Qed.

Lemma smart_merge_dense_NoDup :
  NoDup (concat (smart_merge series_sum geodesic_m df_visits place_summary
                   distance_threshold_m min_visits)).
Proof.
  pose proof (smart_merge_grouped series_sum geodesic_m df_visits place_summary
                distance_threshold_m min_visits)
    as (_ & Hused & Hnd & Hsub & _).
  pose proof (seeds_unmarked_fold place_summary [] ([], ∅)) as Hun.
  unfold smart_merge.
  rewrite concat_seeds_absorbed. apply NoDup_app.
  split; [exact (sublist_NoDup _ _ distinct Hsub)|].
  split; [|done].
  intros s Hs Ha. apply (Hun (fun _ H => H)
    (grouped_start series_sum geodesic_m df_visits place_summary
       distance_threshold_m
       min_visits)
    (fun s H => False_ind _ (proj1 (elem_of_nil s) H)) s Hs).
  by apply Hused.
Qed.
End Dense.

(** X8: the groups are a partition of the identifiers of the summary
    whenever the distance is symmetric, the identifiers of the summary are
    distinct and no place of the summary has fewer than [min_visits] raw
    visits: the groups then share no identifier, hold exactly the
    identifiers of the summary, and every identifier is in one group
    only. *)
Theorem smart_merge_partition_when_dense (series_sum : list Q -> Q)
    (geodesic_m : Q * Q -> Q * Q -> Q)
    (df_visits : list Visit) (place_summary : list PlaceRow)
    (distance_threshold_m : Q) (min_visits : Z) :
  (forall p q, Qeq (geodesic_m p q) (geodesic_m q p)) ->
  NoDup (map ps_placeID place_summary) ->
  (forall r, r ∈ place_summary ->
     min_visits <= Z.of_nat (length (visits_of df_visits (ps_placeID r)))) ->
  NoDup (concat (smart_merge series_sum geodesic_m df_visits place_summary
                   distance_threshold_m min_visits)) /\
  concat (smart_merge series_sum geodesic_m df_visits place_summary
            distance_threshold_m min_visits)
  ≡ₚ map ps_placeID place_summary /\
  (forall pid, pid ∈ map ps_placeID place_summary ->
     exists i group,
       smart_merge series_sum geodesic_m df_visits place_summary
         distance_threshold_m min_visits !! i = Some group /\
       pid ∈ group /\
       forall j group',
         smart_merge series_sum geodesic_m df_visits place_summary
           distance_threshold_m min_visits !! j = Some group' ->
         pid ∈ group' -> j = i).
Proof.
  intros Hsym Hids Hdense.
  pose proof
      (smart_merge_dense_NoDup series_sum geodesic_m df_visits place_summary
                distance_threshold_m min_visits Hsym Hids Hdense) as Hnd.
  pose proof (smart_merge_grouped series_sum geodesic_m df_visits place_summary
                distance_threshold_m min_visits)
    as (Hall & Hused & _ & _ & Hseen).
  fold
      (smart_merge series_sum geodesic_m df_visits place_summary
         distance_threshold_m
          min_visits) in Hall, Hused, Hseen, Hnd.
  set (groups := smart_merge series_sum geodesic_m df_visits place_summary
                   distance_threshold_m min_visits) in *.
  assert (Hmem : forall x, x ∈ concat groups <-> x ∈ map ps_placeID place_summary).
  { intros x. split.
    - intros (g & Hg & Hx)%elem_of_concat.
      rewrite Forall_forall in Hall.
      destruct (Hall g Hg) as (r & added & Hr & -> & _ & Hadded & _).
      apply elem_of_cons in Hx as [->|Hx].
      + apply list_elem_of_In, in_map, list_elem_of_In, Hr.
      + destruct (Hadded x Hx) as (p & Hp & <- & _).
        apply list_elem_of_In, in_map, list_elem_of_In, Hp.
    - intros Hx. apply list_elem_of_In, in_map_iff in Hx as (r & <- & Hr).
      apply list_elem_of_In in Hr. rewrite concat_seeds_absorbed.
      apply elem_of_app. destruct (Hseen r Hr) as [H|H]; [right|by left].
      by apply Hused. }
  split; [done|]. split; [by apply NoDup_Permutation|].
  intros pid Hpid. apply Hmem, elem_of_concat in Hpid as (g & Hg & Hx).
  apply list_elem_of_lookup in Hg as [i Hi].
  exists i, g. split; [done|]. split; [done|].
  intros j g' Hj Hx'. by apply (concat_unique_group groups j i g' g pid).
Qed.

Lemma grid_distance_m_sym p q :
  Qeq (grid_distance_m p q) (grid_distance_m q p).
Proof.
  unfold grid_distance_m.
  by rewrite (Qabs_Qminus (fst p)), (Qabs_Qminus (snd p)).
Qed.

Lemma smart_merge_partition_when_dense_witness :
  smart_merge qsum grid_distance_m two_heavy (place_summary_of two_heavy)
    (inject_Z 130) 2
  = [["A"; "B"]] /\
  NoDup (concat (smart_merge qsum grid_distance_m two_heavy
                   (place_summary_of two_heavy) (inject_Z 130) 2)) /\
  concat (smart_merge qsum grid_distance_m two_heavy
            (place_summary_of two_heavy) (inject_Z 130) 2)
  ≡ₚ map ps_placeID (place_summary_of two_heavy).
Proof.
  assert (Hids : NoDup (map ps_placeID (place_summary_of two_heavy))).
  { apply (bool_decide_unpack _). by vm_compute. }
  assert (Hdense : forall r, r ∈ place_summary_of two_heavy ->
            2 <= Z.of_nat (length (visits_of two_heavy (ps_placeID r)))).
  { intros r Hr.
    change (place_summary_of two_heavy)
      with [summary_row two_heavy "A"; summary_row two_heavy "B"] in Hr.
    apply elem_of_cons in Hr as [->|Hr]; [by vm_compute|].
    apply list_elem_of_singleton in Hr as ->. by vm_compute. }
  split; [by vm_compute|].
  destruct (smart_merge_partition_when_dense qsum grid_distance_m two_heavy
              (place_summary_of two_heavy) (inject_Z 130) 2
              grid_distance_m_sym Hids Hdense) as (H1 & H2 & _).
  by split.
Defined.

(** X19: no place is left out by the merger: the identifier of every row
    of the summary is in some group, as its seed or absorbed. *)
Theorem smart_merge_leaves_no_place_out (series_sum : list Q -> Q)
    (geodesic_m : Q * Q -> Q * Q -> Q)
    (df_visits : list Visit) (place_summary : list PlaceRow)
    (distance_threshold_m : Q) (min_visits : Z) :
  Forall (fun r =>
            ps_placeID r ∈
              seeds (smart_merge series_sum geodesic_m df_visits place_summary
                       distance_threshold_m min_visits) \/
            ps_placeID r ∈
              absorbed
                  (smart_merge series_sum geodesic_m df_visits place_summary
                          distance_threshold_m min_visits))
         place_summary /\
  (forall pid, pid ∈ map ps_placeID place_summary ->
     exists group,
       group ∈ smart_merge series_sum geodesic_m df_visits place_summary
                 distance_threshold_m min_visits /\
       pid ∈ group).
Proof.
  destruct (smart_merge_grouped series_sum geodesic_m df_visits place_summary
              distance_threshold_m min_visits)
    as (_ & Hused & _ & _ & Hseen).
  fold
      (smart_merge series_sum geodesic_m df_visits place_summary
         distance_threshold_m
          min_visits) in Hused, Hseen.
  assert (Hall : forall r, r ∈ place_summary ->
            ps_placeID r ∈
              seeds (smart_merge series_sum geodesic_m df_visits place_summary
                       distance_threshold_m min_visits) \/
            ps_placeID r ∈
              absorbed
                  (smart_merge series_sum geodesic_m df_visits place_summary
                          distance_threshold_m min_visits)).
  { intros r Hr. destruct (Hseen r Hr) as [H|H]; [right; by apply Hused|by left]. }
  split; [by apply Forall_forall|].
  intros pid Hpid. apply list_elem_of_In, in_map_iff in Hpid as (r & <- & Hr).
  apply list_elem_of_In in Hr. apply elem_of_concat.
  rewrite concat_seeds_absorbed, elem_of_app. by apply Hall.
Qed.

(** ** Grouping a frame by a key *)

Lemma group_keys_NoDup keys : NoDup (group_keys keys).
Proof.
  unfold group_keys. rewrite sort_by_perm. apply NoDup_remove_dups.
Qed.

Lemma group_keys_elem keys k : k ∈ group_keys keys <-> k ∈ keys.
Proof.
  unfold group_keys. by rewrite sort_by_elem, elem_of_remove_dups.
Qed.

Lemma group_keys_sorted keys :
  Sorted (fun a b => String.leb a b = true) (group_keys keys).
Proof.
  unfold group_keys. apply sort_by_sorted. intros a b H.
  destruct (String.leb_total a b) as [H'|H']; [congruence|done].
Qed.

Lemma sum_list_indicator (keys : list string) k0 :
  NoDup keys -> k0 ∈ keys ->
  sum_list (map (fun k => if decide (Some k0 = Some k) then 1%nat else 0%nat)
                keys)
  = 1%nat.
Proof.
  induction 1 as [|k keys Hk Hnd IH]; intros Hin.
  - by apply elem_of_nil in Hin.
  - simpl. destruct (decide (Some k0 = Some k)) as [[= ->]|Hne].
    + f_equal. clear IH Hin. induction keys as [|k' keys IH]; [done|].
      simpl. apply not_elem_of_cons in Hk as [Hne Hk].
      destruct (decide (Some k = Some k')) as [[= ->]|_]; [done|].
      apply IH; [done|]. by apply NoDup_cons in Hnd as [_ ?].
    + apply elem_of_cons in Hin as [->|Hin]; [done|]. by apply IH.
Qed.

Lemma sum_list_map_plus {A} (a b : A -> nat) (l : list A) :
  sum_list (map (fun k => (a k + b k)%nat) l)
  = (sum_list (map a l) + sum_list (map b l))%nat.
Proof. induction l as [|x l IH]; simpl; [done|]. rewrite IH. lia. Qed.

(** The groups of a [groupby] share the rows that have a key among them:
    their sizes add up to the number of such rows. *)
Lemma group_sizes_sum {A} (f : A -> option string) (df : list A)
    (keys : list string) :
  NoDup keys ->
  (forall v k, v ∈ df -> f v = Some k -> k ∈ keys) ->
  sum_list (map (fun k => length (filter (fun v => f v = Some k) df)) keys)
  = length (omap f df).
Proof.
  intros Hnd. induction df as [|v df IH]; intros Hkeys.
  - simpl. induction keys; [done|]. simpl. apply IHkeys.
    + by apply NoDup_cons in Hnd as [_ ?].
    + intros v k Hv. by apply elem_of_nil in Hv.
  - assert (IH' := IH (fun v' k Hv' => Hkeys v' k (list_elem_of_further _ _ _ Hv'))).
    destruct (f v) as [k0|] eqn:Hf.
    + assert (Hk0 : k0 ∈ keys) by (apply (Hkeys v); [apply list_elem_of_here|done]).
      change (omap f (v :: df))
        with (match f v with Some y => y :: omap f df | None => omap f df end).
      rewrite Hf. simpl length. rewrite <- IH'.
      rewrite (map_ext _
        (fun k => ((if decide (Some k0 = Some k) then 1 else 0)
                   + length (filter (fun v => f v = Some k) df))%nat)).
      * by rewrite sum_list_map_plus, (sum_list_indicator keys k0 Hnd Hk0).
      * intros k. rewrite filter_cons, Hf.
        by destruct (decide (Some k0 = Some k)).
    + change (omap f (v :: df))
        with (match f v with Some y => y :: omap f df | None => omap f df end).
      rewrite Hf, <- IH'. f_equal.
      apply map_ext. intros k. rewrite filter_cons.
      rewrite Hf. by destruct (decide (None = Some k)).
Qed.

Lemma omap_Some_map {A B} (f : A -> B) (l : list A) :
  omap (fun v => Some (f v)) l = map f l.
Proof. induction l as [|x l IH]; [done|]. simpl. by f_equal. Qed.

Lemma visits_of_alt df pid :
  visits_of df pid = filter (fun v => Some (placeID v) = Some pid) df.
Proof.
  unfold visits_of. induction df as [|v df IH]; [done|].
  rewrite !filter_cons, IH.
  destruct (decide (placeID v = pid)) as [->|Hne].
  - by rewrite decide_True.
  - rewrite decide_False; [done|]. intros [=]. done.
Qed.

Lemma place_summary_of_ids df :
  map ps_placeID (place_summary_of df) = group_keys (map placeID df).
Proof. unfold place_summary_of. rewrite map_map. simpl. apply map_id. Qed.

Lemma group_keys_placeID df pid :
  pid ∈ group_keys (map placeID df) <-> exists v, v ∈ df /\ placeID v = pid.
Proof.
  rewrite group_keys_elem, list_elem_of_In, in_map_iff.
  split; intros (v & H1 & H2); exists v.
  - by rewrite list_elem_of_In.
  - by rewrite <- list_elem_of_In.
Qed.

(** X9: the place summary has one row per identifier occurring in the
    visits, in increasing order of the identifiers; each row counts the
    visits of its place, at least one, and the counts add up to the number
    of visits. *)
Theorem place_summary_of_rows (df : list Visit) :
  NoDup (map ps_placeID (place_summary_of df)) /\
  Sorted (fun a b => String.leb a b = true)
         (map ps_placeID (place_summary_of df)) /\
  (forall pid, pid ∈ map ps_placeID (place_summary_of df) <->
               exists v, v ∈ df /\ placeID v = pid) /\
  Forall (fun r => r = summary_row df (ps_placeID r) /\
                   ps_num_visits r = length (visits_of df (ps_placeID r)) /\
                   (1 <= ps_num_visits r)%nat)
         (place_summary_of df) /\
  sum_list (map ps_num_visits (place_summary_of df)) = length df.
Proof.
  pose proof (group_keys_placeID df) as Hmem.
  rewrite place_summary_of_ids. split; [apply group_keys_NoDup|].
  split; [apply group_keys_sorted|]. split; [exact Hmem|]. split.
  - unfold place_summary_of. apply Forall_forall. intros r Hr.
    apply list_elem_of_In, in_map_iff in Hr as (pid & <- & Hpid).
    apply list_elem_of_In, Hmem in Hpid as (v & Hv & Hpid).
    simpl. split; [done|]. split; [done|].
    assert (Hin : v ∈ visits_of df pid).
    { unfold visits_of. by apply list_elem_of_filter. }
    destruct (visits_of df pid); [by apply elem_of_nil in Hin|simpl; lia].
  - unfold place_summary_of. rewrite map_map. simpl.
    rewrite <- (length_map placeID df), <- (omap_Some_map placeID df).
    rewrite <- (group_sizes_sum (fun v => Some (placeID v)) df
                  (group_keys (map placeID df))).
    + f_equal. apply map_ext. intros pid. by rewrite visits_of_alt.
    + apply group_keys_NoDup.
    + intros v k Hv [= <-]. apply Hmem. by exists v.
Qed.

(** ** The place-to-group map *)

Lemma append_inj_l (p s1 s2 : string) :
  String.append p s1 = String.append p s2 -> s1 = s2.
Proof.
  induction p as [|c p IH]; simpl; [done|]. intros [= H]. by apply IH.
Qed.

Lemma merged_key_inj i j : merged_key i = merged_key j -> i = j.
Proof.
  unfold merged_key. intros H%append_inj_l.
  apply Unsigned.to_uint_inj.
  apply (f_equal NilEmpty.uint_of_string) in H.
  rewrite !NilEmpty.usu in H. by injection H.
Qed.

Lemma fold_insert_lookup (group : list string) (k pid : string) :
  forall m : gmap string string,
    fold_left (fun m pid => <[pid := k]> m) group m !! pid
    = if decide (pid ∈ group) then Some k else m !! pid.
Proof.
  induction group as [|x group IH]; intros m.
  - simpl. destruct (decide (pid ∈ [])) as [H|_]; [|done].
    by apply elem_of_nil in H.
  - simpl fold_left. rewrite IH.
    destruct (decide (pid ∈ group)) as [Hin|Hnin];
      destruct (decide (pid ∈ x :: group)) as [Hin'|Hnin'].
    + done.
    + destruct Hnin'. by apply list_elem_of_further.
    + apply elem_of_cons in Hin' as [->|?]; [|done].
      apply lookup_insert_eq.
    + rewrite lookup_insert_ne; [done|]. intros ->.
      apply Hnin', list_elem_of_here.
Qed.

Lemma merge_map_fold_app (groups : list (list string)) :
  forall st : gmap string string * nat,
    fold_left
      (fun (st : gmap string string * nat) group =>
         (fold_left (fun m pid => <[pid := merged_key (snd st)]> m)
                    group (fst st),
          S (snd st)))
      groups st
    = (fst (fold_left
              (fun (st : gmap string string * nat) group =>
                 (fold_left (fun m pid => <[pid := merged_key (snd st)]> m)
                            group (fst st),
                  S (snd st)))
              groups st),
       (snd st + length groups)%nat).
Proof.
  induction groups as [|g groups IH]; intros [m n]; simpl.
  - f_equal. lia.
  - rewrite IH. simpl. f_equal. lia.
Qed.

Lemma place_id_merge_map_snoc groups group pid :
  place_id_merge_map (groups ++ [group]) !! pid
  = if decide (pid ∈ group) then Some (merged_key (length groups))
    else place_id_merge_map groups !! pid.
Proof.
  unfold place_id_merge_map. rewrite fold_left_app. simpl.
  rewrite (merge_map_fold_app groups). simpl.
  apply fold_insert_lookup.
Qed.

Lemma merge_map_lookup_Some (groups : list (list string)) (pid : string) :
  forall k, place_id_merge_map groups !! pid = Some k <->
    exists i group,
      groups !! i = Some group /\ pid ∈ group /\ k = merged_key i /\
      forall j group', (i < j)%nat -> groups !! j = Some group' ->
                       pid ∉ group'.
Proof.
  induction groups as [|g groups IH] using rev_ind; intros k.
  + split; [done|]. intros (i & group & Hi & _). by rewrite lookup_nil in Hi.
  + rewrite place_id_merge_map_snoc.
    destruct (decide (pid ∈ g)) as [Hin|Hnin].
    * split.
      -- intros [= <-]. exists (length groups), g.
         split; [by apply list_lookup_middle|]. split; [done|].
         split; [done|]. intros j g' Hj Hg'.
         apply lookup_lt_Some in Hg'. rewrite length_app in Hg'.
         simpl in Hg'. lia.
      -- intros (i & group & Hi & Hpid & -> & Hlast). f_equal. f_equal.
         destruct (decide (i < length groups)%nat) as [Hlt|Hge].
         ++ destruct (Hlast (length groups) g Hlt); [|done].
            by apply list_lookup_middle.
         ++ apply lookup_lt_Some in Hi. rewrite length_app in Hi.
            simpl in Hi. lia.
    * rewrite IH. split.
      -- intros (i & group & Hi & Hpid & -> & Hlast).
         exists i, group. split; [by apply lookup_app_l_Some|].
         split; [done|]. split; [done|]. intros j g' Hj Hg'.
         destruct (decide (j < length groups)%nat) as [Hlt|Hge].
         ++ rewrite lookup_app_l in Hg' by done. by eapply Hlast.
         ++ assert (j = length groups) as ->.
            { apply lookup_lt_Some in Hg'. rewrite length_app in Hg'.
              simpl in Hg'. lia. }
            rewrite list_lookup_middle in Hg' by done.
            by injection Hg' as <-.
      -- intros (i & group & Hi & Hpid & -> & Hlast).
         assert (Hlt : (i < length groups)%nat).
         { destruct (decide (i < length groups)%nat) as [?|Hge]; [done|].
           assert (i = length groups) as ->.
           { apply lookup_lt_Some in Hi. rewrite length_app in Hi.
             simpl in Hi. lia. }
           rewrite list_lookup_middle in Hi by done.
           injection Hi as <-. done. }
         exists i, group. rewrite lookup_app_l in Hi by done.
         split; [done|]. split; [done|]. split; [done|].
         intros j g' Hj Hg'. apply (Hlast j g' Hj).
         by apply lookup_app_l_Some.
Qed.

Lemma merge_map_lookup_None (groups : list (list string)) (pid : string) :
  place_id_merge_map groups !! pid = None <->
  forall group, group ∈ groups -> pid ∉ group.
Proof.
  induction groups as [|g groups IH] using rev_ind.
  + split; [|done]. intros _ group Hg. by apply elem_of_nil in Hg.
  + rewrite place_id_merge_map_snoc.
    destruct (decide (pid ∈ g)) as [Hin|Hnin].
    * split; [done|]. intros H. destruct (H g); [|done].
      apply elem_of_app. right. apply list_elem_of_here.
    * rewrite IH. split.
      -- intros H group [Hg|Hg]%elem_of_app; [by apply H|].
         by apply list_elem_of_singleton in Hg as ->.
      -- intros H group Hg. apply H, elem_of_app. by left.
Qed.

(** X10: an identifier is mapped to the key of the last group that holds
    it, so a later group overwrites an earlier one; it has no entry exactly
    when no group holds it; and different groups have different keys. *)
Theorem place_id_merge_map_last (groups : list (list string)) (pid : string) :
  (forall k, place_id_merge_map groups !! pid = Some k <->
     exists i group,
       groups !! i = Some group /\ pid ∈ group /\ k = merged_key i /\
       forall j group', (i < j)%nat -> groups !! j = Some group' ->
                        pid ∉ group') /\
  (place_id_merge_map groups !! pid = None <->
   forall group, group ∈ groups -> pid ∉ group) /\
  (forall i j, merged_key i = merged_key j -> i = j).
Proof.
  split; [apply merge_map_lookup_Some|].
  split; [apply merge_map_lookup_None|apply merged_key_inj].
Qed.

(** ** From the visits to the collapsed rows *)

Lemma collapse_windows_nonempty group :
  group <> [] -> collapse_windows group <> [].
Proof.
  intros Hne. unfold collapse_windows.
  pose proof (sort_by_length (fun a b => start a <=? start b) group) as Hlen.
  fold (sort_values_start group) in Hlen.
  destruct (sort_values_start group) as [|v rows].
  - destruct group; [done|discriminate].
  - rewrite sweep_cons.
    by destruct (sweep_from_head rows (start v) (end_ v)) as (ce & rest & -> & _).
Qed.

Lemma merged_summary_all_keys m df :
  map fst (merged_summary_all m df)
  = group_keys (omap (merged_placeID m) df).
Proof. unfold merged_summary_all. rewrite map_map. simpl. apply map_id. Qed.

Lemma elem_of_omap_list {A} (f : A -> option string) (l : list A) k :
  k ∈ omap f l <-> exists v, v ∈ l /\ f v = Some k.
Proof.
  induction l as [|x l IH].
  - split; [intros H; by apply elem_of_nil in H|].
    intros (v & Hv & _). by apply elem_of_nil in Hv.
  - change (omap f (x :: l))
      with (match f x with Some y => y :: omap f l | None => omap f l end).
    destruct (f x) as [y|] eqn:Hx.
    + rewrite elem_of_cons, IH. split.
      * intros [->|(v & Hv & Hk)].
        -- exists x. split; [apply list_elem_of_here|done].
        -- exists v. split; [by apply list_elem_of_further|done].
      * intros (v & [->|Hv]%elem_of_cons & Hk).
        -- left. congruence.
        -- right. by exists v.
    + rewrite IH. split.
      * intros (v & Hv & Hk). exists v.
        split; [by apply list_elem_of_further|done].
      * intros (v & [->|Hv]%elem_of_cons & Hk); [congruence|]. by exists v.
Qed.

Lemma length_omap_total {A} (f : A -> option string) (l : list A) :
  (forall v, v ∈ l -> is_Some (f v)) -> length (omap f l) = length l.
Proof.
  induction l as [|x l IH]; intros H; [done|].
  change (omap f (x :: l))
    with (match f x with Some y => y :: omap f l | None => omap f l end).
  destruct (H x (list_elem_of_here _ _)) as [y ->]. simpl. f_equal.
  apply IH. intros v Hv. by apply H, list_elem_of_further.
Qed.

(** X11: in the script every visit is given a group key, the key of a
    group of the merger; the collapsed rows have distinct keys, in
    increasing order; the groups behind the rows share all the visits,
    their sizes adding up to the number of visits; and every row has at
    least one window. *)
Theorem every_visit_grouped (series_sum : list Q -> Q)
    (geodesic_m : Q * Q -> Q * Q -> Q)
    (df : list Visit) (distance_threshold_m : Q) (min_visits : Z) :
  (forall v, v ∈ df ->
     exists i row,
       merged_placeID
         (script_merge_map series_sum geodesic_m df distance_threshold_m
            min_visits) v
       = Some (merged_key i) /\
       (i < length (smart_merge series_sum geodesic_m df (place_summary_of df)
                      distance_threshold_m min_visits))%nat /\
       (merged_key i, row) ∈
         merged_summary_all
           (script_merge_map series_sum geodesic_m df
              distance_threshold_m min_visits)
           df) /\
  NoDup (map fst
           (merged_summary_all
              (script_merge_map series_sum geodesic_m df distance_threshold_m
                 min_visits) df)) /\
  Sorted (fun a b => String.leb a b = true)
         (map fst
            (merged_summary_all
               (script_merge_map series_sum geodesic_m df distance_threshold_m
                  min_visits) df)) /\
  sum_list
    (map (fun k =>
            length
              (filter (fun v =>
                         merged_placeID
                           (script_merge_map series_sum geodesic_m df
                              distance_threshold_m min_visits) v
                         = Some k) df))
         (map fst
            (merged_summary_all
               (script_merge_map series_sum geodesic_m df distance_threshold_m
                  min_visits) df)))
  = length df /\
  Forall (fun r => (1 <= c_num_visits (snd r))%nat)
         (merged_summary_all
            (script_merge_map series_sum geodesic_m df
               distance_threshold_m min_visits)
            df).
Proof.
  set (groups := smart_merge series_sum geodesic_m df (place_summary_of df)
                   distance_threshold_m min_visits).
  set
      (m := script_merge_map series_sum geodesic_m df distance_threshold_m
         min_visits).
  assert (Hkey : forall v, v ∈ df ->
            exists i, merged_placeID m v = Some (merged_key i) /\
                      (i < length groups)%nat).
  { intros v Hv.
    pose proof
        (smart_merge_grouped series_sum geodesic_m df (place_summary_of df)
                  distance_threshold_m min_visits)
      as (_ & Hused & _ & _ & Hseen).
    fold (smart_merge series_sum geodesic_m df (place_summary_of df)
            distance_threshold_m min_visits) in Hused, Hseen.
    fold groups in Hused, Hseen.
    assert (Hrow : summary_row df (placeID v) ∈ place_summary_of df).
    { unfold place_summary_of. apply list_elem_of_In, in_map, list_elem_of_In.
      apply group_keys_placeID. by exists v. }
    assert (Hin : placeID v ∈ concat groups).
    { rewrite concat_seeds_absorbed. apply elem_of_app.
      destruct (Hseen _ Hrow) as [H|H]; [right; by apply Hused|by left]. }
    apply elem_of_concat in Hin as (g & Hg & Hpid).
    unfold merged_placeID, m, script_merge_map. fold groups.
    destruct (place_id_merge_map groups !! placeID v) as [k|] eqn:Hk.
    - apply merge_map_lookup_Some in Hk as (i & g' & Hi & _ & -> & _).
      exists i. split; [done|]. by apply lookup_lt_Some in Hi.
    - destruct (proj1 (merge_map_lookup_None _ _) Hk g Hg Hpid). }
  rewrite merged_summary_all_keys.
  split; [|split; [apply group_keys_NoDup|split; [apply group_keys_sorted|split]]].
  - intros v Hv. destruct (Hkey v Hv) as (i & Hi & Hlt).
    exists i, (collapse_visits
                 (filter (fun v' => merged_placeID m v' = Some (merged_key i)) df)).
    split; [done|]. split; [done|].
    unfold merged_summary_all. apply list_elem_of_In, in_map_iff.
    exists (merged_key i). split; [done|].
    apply list_elem_of_In, group_keys_elem, elem_of_omap_list. by exists v.
  - rewrite group_sizes_sum.
    + apply length_omap_total. intros v Hv.
      destruct (Hkey v Hv) as (i & -> & _). by eexists.
    + apply group_keys_NoDup.
    + intros v k Hv Hk. apply group_keys_elem, elem_of_omap_list. by exists v.
  - unfold merged_summary_all. apply Forall_forall. intros r Hr.
    apply list_elem_of_In, in_map_iff in Hr as (k & <- & Hk).
    apply list_elem_of_In, group_keys_elem, elem_of_omap_list in Hk
      as (v & Hv & Hk).
    simpl. unfold collapse_visits. simpl.
    assert (Hne : filter (fun v' => merged_placeID m v' = Some k) df <> []).
    { intros Hnil.
      assert (Hin : v ∈ filter (fun v' => merged_placeID m v' = Some k) df)
        by by apply list_elem_of_filter.
      rewrite Hnil in Hin. by apply elem_of_nil in Hin. }
    apply collapse_windows_nonempty in Hne.
    destruct (collapse_windows _); [done|simpl; lia].
Qed.

(** ** The overlap test *)

(** X12: the overlap test of the merger is symmetric and holds exactly
    when the two intervals share a stretch of positive length: both visits
    last, and each starts strictly before the other ends.  So a visit of
    zero duration overlaps nothing, and two visits that only touch do not
    overlap. *)
Theorem overlaps_positive_stretch (v1 v2 : Visit) :
  overlaps v1 v2 = overlaps v2 v1 /\
  (overlaps v1 v2 = true <->
   start v1 < end_ v1 /\ start v2 < end_ v2 /\
   start v1 < end_ v2 /\ start v2 < end_ v1) /\
  (start v1 = end_ v1 -> overlaps v1 v2 = false) /\
  (end_ v1 = start v2 -> overlaps v1 v2 = false).
Proof.
  split; [apply overlaps_sym|]. split; [rewrite overlaps_true; lia|].
  split; intros H; apply not_true_iff_false; rewrite overlaps_true; lia.
Qed.

(** ** The home row *)

Lemma idxmax_from_spec l : forall best_i best i,
  (idxmax_from best_i best i l = best_i /\
   forall y, y ∈ l -> Qle y best) \/
  (exists k x,
     idxmax_from best_i best i l = (i + k)%nat /\ l !! k = Some x /\
     Qlt best x /\
     (forall y, y ∈ l -> Qle y x) /\
     (forall j y, (j < k)%nat -> l !! j = Some y -> Qlt y x)).
Proof.
  induction l as [|x l IH]; intros best_i best i; simpl.
  - left. split; [done|]. intros y Hy. by apply elem_of_nil in Hy.
  - destruct (Qltb best x) eqn:Hlt.
    + apply Qltb_true in Hlt. right.
      destruct (IH i x (S i)) as [[Hr Hall]|(k & x' & Hr & Hk & Hx & Hall & Hfirst)].
      * exists 0%nat, x. split; [rewrite Hr; lia|]. split; [done|].
        split; [done|]. split.
        -- intros y [->|Hy]%elem_of_cons; [apply Qle_refl|by apply Hall].
        -- intros j y Hj. lia.
      * exists (S k), x'. split; [rewrite Hr; lia|]. split; [done|].
        split; [by apply Qlt_trans with x|]. split.
        -- intros y [->|Hy]%elem_of_cons; [by apply Qlt_le_weak|by apply Hall].
        -- intros [|j] y Hj Hy; simpl in Hy.
           ++ by injection Hy as <-.
           ++ apply (Hfirst j); [lia|done].
    + assert (Hle : Qle x best).
      { apply Qnot_lt_le. intros H. apply Qltb_true in H. congruence. }
      destruct (IH best_i best (S i))
        as [[Hr Hall]|(k & x' & Hr & Hk & Hx & Hall & Hfirst)].
      * left. split; [done|].
        intros y [->|Hy]%elem_of_cons; [done|by apply Hall].
      * right. exists (S k), x'. split; [rewrite Hr; lia|]. split; [done|].
        split; [done|]. split.
        -- intros y [->|Hy]%elem_of_cons; [|by apply Hall].
           apply Qlt_le_weak. by apply Qle_lt_trans with best.
        -- intros [|j] y Hj Hy; simpl in Hy.
           ++ injection Hy as <-. by apply Qle_lt_trans with best.
           ++ apply (Hfirst j); [lia|done].
Qed.

Lemma idxmax_spec l i :
  idxmax l = Some i ->
  exists x, l !! i = Some x /\
    (forall y, y ∈ l -> Qle y x) /\
    (forall j y, (j < i)%nat -> l !! j = Some y -> Qlt y x).
Proof.
  destruct l as [|x0 l]; [done|]. simpl. intros [= <-].
  destruct (idxmax_from_spec l 0%nat x0 1%nat)
    as [[Hr Hall]|(k & x & Hr & Hk & Hx & Hall & Hfirst)]; rewrite Hr.
  - exists x0. split; [done|]. split.
    + intros y [->|Hy]%elem_of_cons; [apply Qle_refl|by apply Hall].
    + intros j y Hj. lia.
  - exists x. split; [done|]. split.
    + intros y [->|Hy]%elem_of_cons; [by apply Qlt_le_weak|by apply Hall].
    + intros [|j] y Hj Hy; simpl in Hy.
      * by injection Hy as <-.
      * apply (Hfirst j); [lia|done].
Qed.

Lemma lookup_map_Some {A B} (f : A -> B) (l : list A) i y :
  map f l !! i = Some y <-> exists x, l !! i = Some x /\ y = f x.
Proof.
  revert i. induction l as [|a l IH]; intros i; simpl.
  - rewrite lookup_nil. split; [done|]. intros (x & Hx & _).
    by rewrite lookup_nil in Hx.
  - destruct i as [|i]; simpl; [|apply IH].
    split; [intros [= <-]; by exists a|]. by intros (x & [= <-] & ->).
Qed.

(** X13: the home row.  Line 181 raises exactly when no row is left in
    the summary; otherwise the label "Home" goes to the first row, in row
    order, whose total duration is the largest, every other label is kept,
    and no label is added or lost. *)
Theorem assign_home_first_longest (rows : list (string * CollapsedRow))
    (labels : list string) :
  length labels = length rows ->
  (assign_home rows labels = None <-> rows = []) /\
  (forall labels', assign_home rows labels = Some labels' ->
     exists i r,
       rows !! i = Some r /\ labels' !! i = Some "Home" /\
       length labels' = length labels /\
       (forall j, j <> i -> labels' !! j = labels !! j) /\
       (forall r', r' ∈ rows ->
          Qle (c_total_duration_min (snd r')) (c_total_duration_min (snd r))) /\
       (forall j r', (j < i)%nat -> rows !! j = Some r' ->
          Qlt (c_total_duration_min (snd r'))
              (c_total_duration_min (snd r)))).
Proof.
  intros Hlen. unfold assign_home. split.
  - destruct rows; simpl; [done|]. split; intros; discriminate.
  - intros labels' H.
    destruct (idxmax (map (fun r => c_total_duration_min (snd r)) rows))
      as [i|] eqn:Hi; [|done].
    injection H as <-.
    destruct (idxmax_spec _ _ Hi) as (x & Hx & Hall & Hfirst).
    apply lookup_map_Some in Hx as (r & Hr & ->).
    exists i, r. split; [done|]. split.
    { apply list_lookup_insert_eq. rewrite Hlen. by eapply lookup_lt_Some. }
    split; [apply length_insert|]. split.
    { intros j Hj. by apply list_lookup_insert_ne. }
    split.
    + intros r' Hr'. apply Hall. apply list_elem_of_In.
      apply (in_map (fun r => c_total_duration_min (snd r))).
      by apply list_elem_of_In.
    + intros j r' Hj Hr'. apply (Hfirst j); [done|].
      apply lookup_map_Some. by exists r'.
Qed.

Lemma assign_home_first_longest_witness :
  length ["Gym"; "Unknown"]
  = length (merged_summary_all
              (script_merge_map qsum grid_distance_m three_and_two
                 (inject_Z 130) 2) three_and_two) /\
  assign_home
    (merged_summary_all
       (script_merge_map qsum grid_distance_m three_and_two (inject_Z 130) 2)
       three_and_two)
    ["Gym"; "Unknown"]
  = Some ["Home"; "Unknown"] /\
  (assign_home
     (merged_summary_all
        (script_merge_map qsum grid_distance_m three_and_two (inject_Z 130) 2)
        three_and_two)
     ["Gym"; "Unknown"] = None <->
   merged_summary_all
     (script_merge_map qsum grid_distance_m three_and_two (inject_Z 130) 2)
     three_and_two = []).
Proof.
  assert (Hlen : length ["Gym"; "Unknown"]
                 = length (merged_summary_all
                             (script_merge_map qsum grid_distance_m
                                three_and_two
                                (inject_Z 130) 2) three_and_two))
    by (by vm_compute).
  split; [exact Hlen|]. split; [by vm_compute|].
  exact (proj1 (assign_home_first_longest _ _ Hlen)).
Defined.

(** ** The popup *)

Lemma Qfloor_unique (x : Q) (z : Z) :
  Qle (inject_Z z) x -> Qlt x (inject_Z (z + 1)) -> Qfloor x = z.
Proof.
  intros Hle Hlt.
  pose proof (Qfloor_le x) as H1. pose proof (Qlt_floor x) as H2.
  assert (Ha : Qlt (inject_Z (Qfloor x)) (inject_Z (z + 1)))
    by (by apply Qle_lt_trans with x).
  assert (Hb : Qlt (inject_Z z) (inject_Z (Qfloor x + 1)))
    by (by apply Qle_lt_trans with x).
  rewrite <- Zlt_Qlt in Ha, Hb. lia.
Qed.

(** X14: for a total duration from 0 up to [2 ^ 53] minutes, the hours and
    minutes of a popup are the whole minutes of the total, split at sixty:
    the minutes are between 0 and 59, the hours are not negative, and
    sixty times the hours plus the minutes is the total rounded down. *)
Theorem popup_time_split (total_duration_min : Q) :
  Qle (inject_Z 0) total_duration_min ->
  Qlt total_duration_min (inject_Z (2 ^ 53)) ->
  0 <= popup_minutes total_duration_min < 60 /\
  0 <= popup_hours total_duration_min /\
  60 * popup_hours total_duration_min + popup_minutes total_duration_min
  = Qfloor total_duration_min.
Proof.
  intros Hpos _.
  assert (Hh : 0 <= popup_hours total_duration_min).
  { unfold popup_hours. rewrite <- (Qfloor_Z 0). apply Qfloor_resp_le.
    apply Qle_shift_div_l; [reflexivity|].
    by rewrite Qmult_0_l. }
  revert Hh. unfold popup_minutes, popup_hours.
  set (t := total_duration_min).
  set (q := Qfloor (Qdiv t (inject_Z 60))).
  pose proof (Qfloor_le (Qdiv t (inject_Z 60))) as H1.
  pose proof (Qlt_floor (Qdiv t (inject_Z 60))) as H2.
  fold q in H1, H2. rewrite inject_Z_plus in H2. clearbody q.
  set (r := Qminus t (Qmult (inject_Z 60) (inject_Z q))).
  assert (Hr : Qeq r (Qminus t (Qmult (inject_Z 60) (inject_Z q))))
    by reflexivity.
  clearbody r. intros Hh.
  assert (Ht : Qeq (Qmult (inject_Z 60) (Qdiv t (inject_Z 60))) t)
    by (field; discriminate).
  change (inject_Z 60) with 60%Q in *. change (inject_Z 1) with 1%Q in *.
  assert (Hr0 : Qle (inject_Z 0) r) by (change (inject_Z 0) with 0%Q; lra).
  assert (Hr60 : Qlt r (inject_Z 60)) by (change (inject_Z 60) with 60%Q; lra).
  pose proof (Qfloor_le r) as H3. pose proof (Qlt_floor r) as H4.
  assert (Hf0 : 0 <= Qfloor r).
  { rewrite <- (Qfloor_Z 0). by apply Qfloor_resp_le. }
  assert (Hf60 : Qfloor r < 60).
  { rewrite Zlt_Qlt. by apply Qle_lt_trans with r. }
  split; [lia|]. split; [done|]. symmetry. apply Qfloor_unique.
  - rewrite inject_Z_plus, inject_Z_mult.
    change (inject_Z 60) with 60%Q. lra.
  - rewrite !inject_Z_plus, inject_Z_mult. rewrite inject_Z_plus in H4.
    change (inject_Z 60) with 60%Q. change (inject_Z 1) with 1%Q in *. lra.
Qed.

Lemma popup_time_split_witness :
  Qle (inject_Z 0) (Qmake 251 2) /\
  Qlt (Qmake 251 2) (inject_Z (2 ^ 53)) /\
  popup_hours (Qmake 251 2) = 2 /\
  popup_minutes (Qmake 251 2) = 5 /\
  60 * popup_hours (Qmake 251 2) + popup_minutes (Qmake 251 2)
  = Qfloor (Qmake 251 2).
Proof.
  assert (H0 : Qle (inject_Z 0) (Qmake 251 2)) by (by vm_compute).
  assert (H1 : Qlt (Qmake 251 2) (inject_Z (2 ^ 53))) by (by vm_compute).
  split; [exact H0|]. split; [exact H1|].
  split; [reflexivity|]. split; [reflexivity|].
  exact (proj2 (proj2 (popup_time_split (Qmake 251 2) H0 H1))).
Defined.

(** ** Parsing *)

Lemma append_cons c (a b : string) :
  String.append (String c a) b = String c (String.append a b).
Proof. reflexivity. Qed.

Lemma append_nil (b : string) : String.append EmptyString b = b.
Proof. reflexivity. Qed.

Lemma coordinate_run_app (a rest : string) :
  coordinate_text a = true -> run_ends rest = true ->
  coordinate_run (String.append a rest) = (a, rest).
Proof.
  induction a as [|c a IH]; simpl; intros Ha Hrest.
  - destruct rest as [|c rest]; [done|]. simpl in *.
    by destruct (coordinate_char c).
  - apply andb_true_iff in Ha as [Hc Ha]. rewrite Hc.
    by rewrite (IH Ha Hrest).
Qed.

Lemma coordinate_run_spec (s : string) : forall run rest,
  coordinate_run s = (run, rest) ->
  s = String.append run rest /\ coordinate_text run = true /\
  run_ends rest = true.
Proof.
  induction s as [|c s IH]; simpl; intros run rest H.
  - by injection H as <- <-.
  - destruct (coordinate_char c) eqn:Hc.
    + destruct (coordinate_run s) as [run' rest'].
      injection H as <- <-.
      destruct (IH run' rest' eq_refl) as (-> & Hrun & Hrest).
      simpl. by rewrite Hc.
    + injection H as <- <-. simpl. by rewrite Hc.
Qed.

Lemma match_geo_at_no_g c s :
  Ascii.eqb c "g" = false -> match_geo_at (String c s) = None.
Proof.
  intros Hc. unfold match_geo_at.
  destruct c as [[] [] [] [] [] [] [] []]; try done.
Qed.

(** X15: the pattern of line 17 reads back a location written as "geo:",
    a latitude, a comma and a longitude: when the two numbers are
    non-empty texts over the digits, "." and "-", the text before holds no
    "g" and the text after does not go on with such a character, the
    search returns exactly the two numbers. *)
Theorem re_search_geo_round_trip (before la ln after : string) :
  no_g before = true ->
  la <> EmptyString -> ln <> EmptyString ->
  coordinate_text la = true -> coordinate_text ln = true ->
  run_ends after = true ->
  re_search_geo
    (String.append before
       (String.append "geo:"
          (String.append la (String.append "," (String.append ln after)))))
  = Some (la, ln).
Proof.
  intros Hb Hla Hln Htla Htln Hafter.
  induction before as [|c before IH].
  - rewrite append_nil, !append_cons, !append_nil.
    cbn [re_search_geo match_geo_at].
    rewrite (coordinate_run_app la); [|done|reflexivity].
    destruct la as [|c la]; [done|].
    rewrite (coordinate_run_app ln); [|done|done].
    by destruct ln.
  - simpl in Hb. apply andb_true_iff in Hb as [Hc Hb].
    apply negb_true_iff in Hc.
    rewrite append_cons. cbn [re_search_geo]. rewrite match_geo_at_no_g by done.
    by apply IH.
Qed.

Lemma re_search_geo_round_trip_witness :
  re_search_geo "Place at geo:38.0293,-78.4767;u=35"
  = Some ("38.0293", "-78.4767")%string.
Proof.
  apply (re_search_geo_round_trip "Place at " "38.0293" "-78.4767" ";u=35");
    done.
Defined.

Lemma match_geo_at_spec s group1 group2 :
  match_geo_at s = Some (group1, group2) ->
  exists after,
    s = String.append "geo:"
          (String.append group1
             (String.append "," (String.append group2 after))) /\
    group1 <> EmptyString /\ group2 <> EmptyString /\
    coordinate_text group1 = true /\ coordinate_text group2 = true /\
    run_ends after = true.
Proof.
  unfold match_geo_at. intros H.
  destruct s as [|c0 s]; [done|].
  destruct c0 as [[] [] [] [] [] [] [] []]; try done.
  destruct s as [|c1 s]; [done|].
  destruct c1 as [[] [] [] [] [] [] [] []]; try done.
  destruct s as [|c2 s]; [done|].
  destruct c2 as [[] [] [] [] [] [] [] []]; try done.
  destruct s as [|c3 s]; [done|].
  destruct c3 as [[] [] [] [] [] [] [] []]; try done.
  destruct (coordinate_run s) as [g1 s2] eqn:H1.
  destruct g1 as [|a g1]; [done|].
  destruct s2 as [|c4 s3]; [done|].
  destruct c4 as [[] [] [] [] [] [] [] []]; try done.
  destruct (coordinate_run s3) as [g2 after] eqn:H2.
  destruct g2 as [|b g2]; [done|]. injection H as <- <-.
  apply coordinate_run_spec in H1 as (-> & Ht1 & _).
  apply coordinate_run_spec in H2 as (-> & Ht2 & Hafter).
  exists after. by repeat split.
Qed.

(** X16: whatever the search of line 17 returns was found in the text:
    the text holds "geo:", the first group, a comma and the second group
    in a row; both groups are non-empty, made of digits, "." and "-"
    only, and the second one is not cut short. *)
Theorem re_search_geo_sound (s group1 group2 : string) :
  re_search_geo s = Some (group1, group2) ->
  exists before after,
    s = String.append before
          (String.append "geo:"
             (String.append group1
                (String.append "," (String.append group2 after)))) /\
    group1 <> EmptyString /\ group2 <> EmptyString /\
    coordinate_text group1 = true /\ coordinate_text group2 = true /\
    run_ends after = true.
Proof.
  induction s as [|c s IH]; intros H.
  - done.
  - cbn [re_search_geo] in H.
    destruct (match_geo_at (String c s)) as [[g1 g2]|] eqn:Hm.
    + injection H as <- <-.
      destruct (match_geo_at_spec _ _ _ Hm) as (after & Hs & Hrest).
      exists EmptyString, after. by split.
    + destruct (IH H) as (before & after & -> & Hrest).
      exists (String c before), after. by split.
Qed.

Lemma re_search_geo_sound_witness :
  exists before after,
    "x geo:1.5,-2 y"%string
    = String.append before
        (String.append "geo:"
           (String.append "1.5"
              (String.append "," (String.append "-2" after)))).
Proof.
  destruct (re_search_geo_sound "x geo:1.5,-2 y" "1.5" "-2" eq_refl)
    as (before & after & H & _).
  by exists before, after.
Defined.

Section ParseFacts.
Variable float : string -> option Q.
Variable to_datetime : string -> option Z.

Local Abbreviation step := (parse_step float to_datetime).
Local Abbreviation parse := (parse_visits float to_datetime).

Lemma parse_step_None data : fold_left step data None = None.
Proof. induction data as [|e data IH]; simpl; [done|apply IH]. Qed.

Lemma parse_step_acc data : forall acc,
  fold_left step data (Some acc)
  = match fold_left step data (Some []) with
    | Some rows => Some (acc ++ rows)
    | None => None
    end.
Proof.
  induction data as [|e data IH]; intros acc; simpl.
  - by rewrite app_nil_r.
  - destruct (visit_of_entry float to_datetime e) as [[v|]|].
    + rewrite (IH (acc ++ [v])), (IH [v]).
      destruct (fold_left step data (Some [])); [|done].
      by rewrite <- app_assoc.
    + apply IH.
    + by rewrite parse_step_None.
Qed.

Lemma parse_visits_cons e data :
  parse (e :: data)
  = match visit_of_entry float to_datetime e with
    | None => None
    | Some row =>
        match parse data with
        | None => None
        | Some rows =>
            Some (match row with Some v => v :: rows | None => rows end)
        end
    end.
Proof.
  unfold parse_visits. simpl.
  destruct (visit_of_entry float to_datetime e) as [[v|]|].
  - rewrite (parse_step_acc data [v]).
    by destruct (fold_left step data (Some [])).
  - by destruct (fold_left step data (Some [])).
  - apply parse_step_None.
Qed.

Lemma visit_of_entry_row e v :
  visit_of_entry float to_datetime e = Some (Some v) ->
  consistent v /\ exists place, visit e = Some place /\ placeID v = tc_placeID place.
Proof.
  unfold visit_of_entry. intros H.
  destruct (visit e) as [place|]; [|done].
  destruct (re_search_geo (placeLocation place)) as [[g1 g2]|]; [|done].
  destruct (float g1), (float g2), (to_datetime (startTime e)),
    (to_datetime (endTime e)); try done.
  injection H as <-. split; [done|]. by exists place.
Qed.
End ParseFacts.

(** X17: when the parsing loop ends without an exception, every row it
    built has the duration computed from its own two timestamps, the rows
    follow the order of the entries that have a "visit" key, with the
    identifiers of their top candidates, and there are no more rows than
    entries; entries without a "visit" key are never read, so dropping
    them changes nothing. *)
Theorem parse_visits_rows (float : string -> option Q)
    (to_datetime : string -> option Z) (data : list Entry)
    (visits : list Visit) :
  parse_visits float to_datetime data = Some visits ->
  Forall consistent visits /\
  (length visits <= length data)%nat /\
  sublist (map placeID visits)
          (omap (fun e => option_map tc_placeID (visit e)) data) /\
  parse_visits float to_datetime
    (filter (fun e => is_Some (visit e)) data)
  = Some visits.
Proof.
  revert visits. induction data as [|e data IH]; intros visits H.
  - injection H as <-. by repeat split.
  - rewrite parse_visits_cons in H.
    destruct (visit_of_entry float to_datetime e) as [row|] eqn:He; [|done].
    destruct (parse_visits float to_datetime data) as [rows|]; [|done].
    injection H as <-.
    destruct (IH rows eq_refl) as (Hc & Hlen & Hsub & Hfil).
    change (omap (fun e => option_map tc_placeID (visit e)) (e :: data))
      with (match option_map tc_placeID (visit e) with
            | Some y => y :: omap (fun e => option_map tc_placeID (visit e)) data
            | None => omap (fun e => option_map tc_placeID (visit e)) data
            end).
    rewrite filter_cons.
    destruct row as [v|].
    + destruct (visit_of_entry_row float to_datetime e v He)
        as (Hv & place & Hplace & Hpid).
      destruct (decide (is_Some (visit e))) as [Hs|Hn];
        [|destruct Hn; by eexists].
      rewrite Hplace. simpl.
      split; [by constructor|]. split; [lia|]. split.
      * rewrite Hpid. by apply sublist_skip.
      * by rewrite parse_visits_cons, He, Hfil.
    + split; [done|]. split; [simpl; lia|]. split.
      * destruct (option_map tc_placeID (visit e)); [|done].
        by apply sublist_cons.
      * destruct (decide (is_Some (visit e))) as [Hs|Hn]; [|done].
        by rewrite parse_visits_cons, He, Hfil.
Qed.

Lemma parse_visits_rows_witness :
  parse_visits (fun _ => Some (inject_Z 0))
               (fun s => Some (Z.of_nat (String.length s)))
    [mkEntry None "x" "y";
     mkEntry (Some (mkTopCandidate "geo:38.0293,-78.4767" "A")) "9" "10:30";
     mkEntry (Some (mkTopCandidate "nowhere" "B")) "1" "2"]
  = Some [parsed_visit "A" 1 5 (inject_Z 0) (inject_Z 0)] /\
  Forall consistent [parsed_visit "A" 1 5 (inject_Z 0) (inject_Z 0)].
Proof.
  assert (H : parse_visits (fun _ => Some (inject_Z 0))
               (fun s => Some (Z.of_nat (String.length s)))
    [mkEntry None "x" "y";
     mkEntry (Some (mkTopCandidate "geo:38.0293,-78.4767" "A")) "9" "10:30";
     mkEntry (Some (mkTopCandidate "nowhere" "B")) "1" "2"]
  = Some [parsed_visit "A" 1 5 (inject_Z 0) (inject_Z 0)]) by reflexivity.
  split; [exact H|]. exact (proj1 (parse_visits_rows _ _ _ _ H)).
Defined.

(** ** The rows that are reported *)

(** X18: a row of the final summary is the collapse of the visits that
    carry its key, it has at least three windows, and so at least three
    raw visits stand behind it: a place seen fewer than three times is
    never reported. *)
Theorem merged_summary_needs_three_visits (series_sum : list Q -> Q)
    (geodesic_m : Q * Q -> Q * Q -> Q)
    (df : list Visit) (k : string) (row : CollapsedRow) :
  (k, row) ∈ merged_summary series_sum geodesic_m df ->
  row = collapse_visits
          (filter (fun v =>
                     merged_placeID
                       (script_merge_map series_sum geodesic_m df
                          (inject_Z 130) 2) v
                     = Some k) df) /\
  (3 <= c_num_visits row)%nat /\
  (3 <= length
          (filter (fun v =>
                     merged_placeID
                       (script_merge_map series_sum geodesic_m df
                          (inject_Z 130) 2) v
                     = Some k) df))%nat.
Proof.
  unfold merged_summary, more_than_two_visits.
  fold (script_merge_map series_sum geodesic_m df (inject_Z 130) 2).
  intros [Hn Hin]%list_elem_of_filter. simpl in Hn.
  unfold merged_summary_all in Hin.
  apply list_elem_of_In, in_map_iff in Hin as (k' & [= <- <-] & _).
  split; [done|]. split; [lia|].
  etrans; [|apply collapse_windows_length]. exact Hn.
Qed.

Lemma merged_summary_needs_three_visits_witness :
  ("merged_0", collapse_visits (visits_of three_and_two "A"))
    ∈ merged_summary qsum grid_distance_m three_and_two /\
  (3 <= c_num_visits (collapse_visits (visits_of three_and_two "A")))%nat.
Proof.
  assert (H : ("merged_0", collapse_visits (visits_of three_and_two "A"))
                ∈ merged_summary qsum grid_distance_m three_and_two).
  { apply list_elem_of_In. vm_compute. by left. }
  split; [exact H|].
  exact (proj1 (proj2 (merged_summary_needs_three_visits _ _ _ _ _ H))).
Defined.
